(** * sketch_temp_mon: request parsing and sensor dispatch

    A shallow embedding of [src/sketch_temp_mon.ino]: the substring test
    [InStr] used to pick a route, the in-place tokenizer [GetParms] built on
    libc's [strtok], the dispatcher [HandleParms], the two formatters and
    the route selection of [loop].

    Conventions.
    - A [char] is an [ascii]; a C string is the [list ascii] of its
      characters before the terminating NUL, and a [char] array (a buffer)
      is the [list ascii] of all its bytes.
    - [int] counters are [nat]: every counter of the sketch is bounded by
      the length of a string held in the 30-byte request buffer, so the
      wrap-around of a 16- or 32-bit [int] is out of reach.
    - A [float] is an IEEE-754 binary32 value, [spec_float] at precision 24
      and maximal exponent 128.
    - A [DHT] sensor is the pair of its two readings; a read is a pure
      function of a fixed sensor state. *)

From Stdlib Require Import Ascii String DecimalString.
From Stdlib Require Import List Arith Bool Lia ZArith.
From Stdlib Require Import Floats.SpecFloat.
Import ListNotations.

Local Open Scope list_scope.
Local Open Scope nat_scope.

(** ** Characters, C strings and the libc functions the sketch calls *)

Definition NUL : ascii := Ascii.zero.

(** The characters of a string literal. *)
Definition chars (s : string) : list ascii := list_ascii_of_string s.

(** A well-formed C string holds no NUL before its terminator. *)
Definition cstring (s : list ascii) : Prop := ~ In NUL s.

Definition strlen (s : list ascii) : nat := length s.

(** [s[i]] for a C string: the terminator is read at [i = strlen s]. *)
Definition char_at (s : list ascii) (i : nat) : ascii := nth i s NUL.

Definition code (c : ascii) : Z := Z.of_N (N_of_ascii c).

(** libc [strcmp]: the difference of the first two characters that differ
    (as [unsigned char]), the terminator counting as 0. *)
Fixpoint strcmp (s1 s2 : list ascii) : Z :=
  match s1, s2 with
  | [], [] => 0
  | [], c2 :: _ => (0 - code c2)%Z
  | c1 :: _, [] => code c1
  | c1 :: t1, c2 :: t2 =>
      if Ascii.eqb c1 c2 then strcmp t1 t2 else (code c1 - code c2)%Z
  end.

(** Memory: a [char] buffer addressed by offset. *)
Definition ptr := nat.

Definition load (m : list ascii) (p : ptr) : ascii := nth p m NUL.

Fixpoint store (m : list ascii) (p : ptr) (c : ascii) : list ascii :=
  match m, p with
  | [], _ => []
  | _ :: t, 0 => c :: t
  | a :: t, S p' => a :: store t p' c
  end.

(** The characters from the head of [l] up to the first NUL. *)
Fixpoint until_nul (l : list ascii) : list ascii :=
  match l with
  | [] => []
  | c :: t => if Ascii.eqb c NUL then [] else c :: until_nul t
  end.

(** The C string that starts at offset [p] of the buffer [m]. *)
Definition cstring_at (m : list ascii) (p : ptr) : list ascii :=
  until_nul (skipn p m).

(** The memory image of a C string: its characters and the terminator. *)
Definition cstr_image (s : list ascii) : list ascii := s ++ [NUL].

Definition is_delim (delim : list ascii) (c : ascii) : bool :=
  existsb (Ascii.eqb c) delim.

(** Length of the longest prefix, ending before the terminator, whose
    characters all satisfy [keep]. *)
Fixpoint span (keep : ascii -> bool) (l : list ascii) : nat :=
  match l with
  | [] => 0
  | c :: t =>
      if negb (Ascii.eqb c NUL) && keep c then S (span keep t) else 0
  end.

Definition strspn (m : list ascii) (p : ptr) (delim : list ascii) : nat :=
  span (is_delim delim) (skipn p m).

Definition strcspn (m : list ascii) (p : ptr) (delim : list ascii) : nat :=
  span (fun c => negb (is_delim delim c)) (skipn p m).

(** libc [strtok] (ISO C 7.24.5.8) with its hidden static pointer made an
    explicit part of the state: skip leading delimiters; no character left
    gives NULL; otherwise the token runs to the next delimiter, which is
    overwritten with NUL, and the scan resumes behind it on the next call
    with a NULL first argument. *)
Record tok_state := mkTok { buf : list ascii; saveptr : option ptr }.

(** The scan of [strtok] once the start [s] is known. *)
Definition strtok_from (m : list ascii) (s : ptr) (delim : list ascii)
  : tok_state * option ptr :=
  let b := s + strspn m s delim in
  if Ascii.eqb (load m b) NUL then (mkTok m (Some b), None)
  else
    let e := b + strcspn m b delim in
    if Ascii.eqb (load m e) NUL then (mkTok m (Some e), Some b)
    else (mkTok (store m e NUL) (Some (S e)), Some b).

Definition strtok (st : tok_state) (str : option ptr) (delim : list ascii)
  : tok_state * option ptr :=
  match (match str with Some p => Some p | None => saveptr st end) with
  | None => (st, None)
  | Some s => strtok_from (buf st) s delim
  end.

(** Decimal text of a non-negative [int], as [%d] and [String(int)] give. *)
Definition itoa (n : nat) : list ascii :=
  chars (NilZero.string_of_uint (Nat.to_uint n)).

(** ** Floats and sensors *)

Definition float := spec_float.

Definition isnan (x : float) : bool :=
  match x with S754_nan => true | _ => false end.

(** The [float] an [int] 0 converts to. *)
Definition float_zero : float := S754_zero false.

(** A binary32 value. *)
Definition is_binary32 (x : float) : bool := valid_binary 24 128 x.

(** A DHT sensor, seen through the two reads the sketch performs:
    [readTemperature(isFahrenheit)] and [readHumidity()]. *)
Record DHT := mkDHT { readTemperature : bool -> float; readHumidity : float }.

(** ** Application constants *)

Definition REQ_BUF_SZ : nat := 30.
Definition NUM_SENSORS : nat := 6.
Definition MAX_PARMS : nat := 5.

(** ** [InStr] *)

(** The [while (i < len)] loop of [InStr]: [str1] is what is left of the
    haystack from index [i] on, [f] the match-length counter. *)
Fixpoint InStr_loop (str2 : list ascii) (f : nat) (str1 : list ascii) : bool :=
  match str1 with
  | [] => false
  | c :: rest =>
      if Ascii.eqb c (char_at str2 f) then
        if strlen str2 =? S f then true
        else InStr_loop str2 (S f) rest
      else InStr_loop str2 0 rest
  end.

Definition InStr (str1 str2 : list ascii) : bool :=
  if strlen str1 <? strlen str2 then false
  else InStr_loop str2 0 str1.

(** ** [GetParms] *)

(** [parms[i] = word] on the caller's array; a slot that was never assigned
    is [None]. *)
Fixpoint array_set (a : list (option ptr)) (i : nat) (w : ptr)
  : list (option ptr) :=
  match a, i with
  | [], _ => []
  | _ :: t, 0 => Some w :: t
  | x :: t, S i' => x :: array_set t i' w
  end.

(** What [GetParms] leaves behind: the returned count, the caller's array,
    the request buffer as [strtok] rewrote it, the indices of the array
    that were assigned (in order), and whether the overflow diagnostic was
    printed on the serial line. *)
Record parsed := mkParsed {
  p_count : nat;
  p_parms : list (option ptr);
  p_tok : tok_state;
  p_writes : list nat;
  p_diag : bool
}.

(** The [while (word != NULL)] loop. Each turn either leaves the loop or
    increments [i], so [S num_parms] turns always suffice. *)
Fixpoint GetParms_loop (fuel num_parms i : nat) (word : option ptr)
    (tk : tok_state) (parms : list (option ptr)) (writes : list nat)
  : option parsed :=
  match fuel with
  | 0 => None
  | S fuel' =>
      match word with
      | None => Some (mkParsed i parms tk writes false)
      | Some w =>
          if i <? num_parms then
            let parms' := array_set parms i w in
            let '(tk', word') := strtok tk None (chars "/") in
            GetParms_loop fuel' num_parms (S i) word' tk' parms' (writes ++ [i])
          else Some (mkParsed i parms tk writes true)
      end
  end.

(** [req] is the buffer the request points to (the pointer itself is
    offset 0). *)
Definition GetParms (req : list ascii) (parms : list (option ptr))
    (num_parms : nat) : option parsed :=
  let '(t1, _) := strtok (mkTok req None) (Some 0) (chars " ") in
  let '(t2, word) := strtok t1 None (chars " ") in
  let url := word in
  let '(t3, word) := strtok t2 url (chars "/") in
  GetParms_loop (S num_parms) num_parms 0 word t3 parms [].

(** The strings the first [n] entries of the array point to; [None] when
    one of them was never assigned. *)
Fixpoint parm_strings (m : list ascii) (parms : list (option ptr)) (n : nat)
  {struct n} : option (list (list ascii)) :=
  match n with
  | 0 => Some []
  | S n' =>
      match parms with
      | Some p :: t =>
          match parm_strings m t n' with
          | Some l => Some (cstring_at m p :: l)
          | None => None
          end
      | _ => None
      end
  end.

(** ** [HandleParms] *)

(** The values of the local [err]; the names are those of the
    specification. *)
Definition NoError : nat := 0.
Definition InvalidSensor : nat := 1.
Definition InvalidOption : nat := 2.
Definition InvalidOperation : nat := 3.

Definition bind {A B} (o : option A) (k : A -> option B) : option B :=
  match o with Some a => k a | None => None end.

Notation "x <- e ;; k" := (bind e (fun x => k))
  (at level 61, e at next level, right associativity).
Notation "' p <- e ;; k" := (bind e (fun p => k))
  (at level 61, p pattern, e at next level, right associativity).

(** [strcmp(s, lit) == 0]. *)
Definition streq (s : list ascii) (lit : string) : bool :=
  (strcmp s (chars lit) =? 0)%Z.

(** The unit-option step: the pair of [err] and [f] after it. Reading
    [parms[2]] when it was never assigned is undefined ([None]). *)
Definition option_step (parms : list (list ascii)) (num_parms : nat)
  : option (nat * bool) :=
  if 2 <? num_parms then
    opt <- nth_error parms 2 ;;
    if streq opt "c" then Some (NoError, false)
    else if streq opt "f" then Some (NoError, true)
    else Some (InvalidOption, true)
  else Some (NoError, true).

(** The sensor chain: [err] is overwritten with 1 when no literal matches;
    [sensor] stays unassigned then. *)
Definition sensor_step (s : list ascii) (err : nat) : nat * option nat :=
  if streq s "sensor0" then (err, Some 0)
  else if streq s "sensor1" then (err, Some 1)
  else if streq s "sensor2" then (err, Some 2)
  else if streq s "sensor3" then (err, Some 3)
  else if streq s "sensor4" then (err, Some 4)
  else if streq s "sensor5" then (err, Some 5)
  else (InvalidSensor, None).

(** The operation step, entered only when [err == 0]: the pair of [err]
    and [ret] after it ([ret] stays unassigned on an invalid operation). *)
Definition operation_step (op : list ascii) (f : bool) (sensor : option nat)
    (sensors : list DHT) : option (nat * option float) :=
  if streq op "temp" then
    i <- sensor ;; d <- nth_error sensors i ;;
    Some (NoError, Some (readTemperature d f))
  else if streq op "humidity" then
    i <- sensor ;; d <- nth_error sensors i ;;
    Some (NoError, Some (readHumidity d))
  else Some (InvalidOperation, None).

(** The whole body of [HandleParms]: the final values of the locals [err]
    and [ret]. [parms] lists the strings the assigned entries of the array
    point to; [None] stands for undefined behaviour (an unassigned pointer
    or an index outside [sensors]). *)
Definition HandleParms_run (parms : list (list ascii)) (num_parms : nat)
    (sensors : list DHT) : option (nat * float) :=
  '(err, f) <- option_step parms num_parms ;;
  s <- nth_error parms 0 ;;
  let '(err, sensor) := sensor_step s err in
  '(err, ret) <-
     (if err =? 0 then
        op <- nth_error parms 1 ;; operation_step op f sensor sensors
      else Some (err, None)) ;;
  let ret := if negb (err =? 0) then Some float_zero else ret in
  r <- ret ;; Some (err, r).

(** What the caller receives: [return ret]. *)
Definition HandleParms (parms : list (list ascii)) (num_parms : nat)
    (sensors : list DHT) : option float :=
  option_map snd (HandleParms_run parms num_parms sensors).

(** The error the run ended with, which stays local to [HandleParms]. *)
Definition HandleParms_err (parms : list (list ascii)) (num_parms : nat)
    (sensors : list DHT) : option nat :=
  option_map fst (HandleParms_run parms num_parms sensors).

(** ** The two formatters *)

(** The three locals [f], [c], [h] of [format_data_long] and
    [format_data_short] once their [isnan] checks have run
    ([readTemperature()] defaults to Celsius). *)
Definition checked_readings (dht : DHT) : float * float * float :=
  let f := readTemperature dht true in
  let f := if isnan f then float_zero else f in
  let c := readTemperature dht false in
  let c := if isnan c then float_zero else c in
  let h := readHumidity dht in
  let h := if isnan h then float_zero else h in
  (f, c, h).

Section Formatting.

(** The text Arduino's [String] concatenation gives a [float]; it belongs
    to the Arduino core, not to the sketch. *)
Variable float_text : float -> list ascii.

Definition format_data_long (dht : DHT) (label : list ascii) : list ascii :=
  let '(f, c, h) := checked_readings dht in
  label ++ chars ": " ++ float_text f ++ chars "&deg;F, "
        ++ float_text c ++ chars "&deg;C, " ++ float_text h ++ chars "% RH".

Definition format_data_short (dht : DHT) (sensor : nat) : list ascii :=
  let '(f, c, h) := checked_readings dht in
  itoa sensor ++ chars "," ++ float_text f ++ chars ","
              ++ float_text c ++ chars "," ++ float_text h.

End Formatting.

(** ** The request buffer and the route selection of [loop] *)

(** [HTTP_req] when the reply is built: zero-filled, then the first
    [REQ_BUF_SZ - 1] bytes of the request copied in. *)
Definition HTTP_req_bytes (request : list ascii) : list ascii :=
  let b := firstn (REQ_BUF_SZ - 1) request in
  b ++ repeat NUL (REQ_BUF_SZ - length b).

(** The same buffer read as a C string. *)
Definition HTTP_req_string (request : list ascii) : list ascii :=
  cstring_at (HTTP_req_bytes request) 0.

(** The branch of the [if / else if / else if] chain that is taken. *)
Inductive route := Root | Sensor | Report | NoRoute.

Definition select_route (HTTP_req : list ascii) : route :=
  if InStr HTTP_req (chars "GET / ") then Root
  else if InStr HTTP_req (chars "GET /s") then Sensor
  else if InStr HTTP_req (chars "GET /report ") then Report
  else NoRoute.

(** The sensor branch: [GetParms] on the buffer, then [HandleParms] on the
    strings the assigned entries point to. The result is the [float] handed
    to [client.println]. *)
Definition sensor_branch (HTTP_req : list ascii) (sensors : list DHT)
  : option float :=
  r <- GetParms HTTP_req (repeat None MAX_PARMS) MAX_PARMS ;;
  parms <- parm_strings (buf (p_tok r)) (p_parms r) (p_count r) ;;
  HandleParms parms (p_count r) sensors.

(** ** The label buffer of the report branch *)

(** [char label[] = ""]: the array holds the terminator only. *)
Definition label : list ascii := cstr_image (chars "").

(** The bytes [sprintf(label, "DHT%d", j)] writes, terminator included;
    byte [k] of them goes to [label[k]]. *)
Definition sprintf_DHT (j : nat) : list ascii :=
  cstr_image (chars "DHT" ++ itoa j).

Definition write_offsets (bytes : list ascii) : list nat :=
  seq 0 (length bytes).

Definition in_bounds (size : nat) (offsets : list nat) : Prop :=
  Forall (fun k => k < size) offsets.

(** ** A deterministic sensor bench for the literal scenarios *)

(** 72.0, 22.2 (the nearest binary32, 0x41B1999A) and 45.5. *)
Definition f72_0 : float := S754_finite false 9437184 (-17).
Definition f22_2 : float := S754_finite false 11639194 (-19).
Definition f45_5 : float := S754_finite false 11927552 (-18).

Definition bench_sensor (tf tc h : float) : DHT :=
  mkDHT (fun isFahrenheit => if isFahrenheit then tf else tc) h.

Definition idle_sensor : DHT := bench_sensor float_zero float_zero float_zero.

(** Sensor 0 reads 72.0 F / 22.2 C, sensor 3 reads 45.5 % humidity. *)
Definition bench : list DHT :=
  [ bench_sensor f72_0 f22_2 float_zero; idle_sensor; idle_sensor;
    bench_sensor float_zero float_zero f45_5; idle_sensor; idle_sensor ].

(** A bench whose sensor 0 fails every read. *)
Definition failing_bench : list DHT :=
  bench_sensor S754_nan S754_nan S754_nan :: tl bench.

(** ** Reference notions the theorems compare the code with *)

(** [needle] occurs as a contiguous substring of [haystack]. *)
Definition Substring (needle haystack : list ascii) : Prop :=
  exists pre post, haystack = pre ++ needle ++ post.

(** The path of [n] segments: ["/seg1/seg2/.../segn"]. *)
Definition path_of (segs : list (list ascii)) : list ascii :=
  concat (map (fun s => chars "/" ++ s) segs).

(** A segment: non-empty, without slash, space or NUL. *)
Definition segment (s : list ascii) : Prop :=
  s <> [] /\ Forall (fun c => c <> "/"%char /\ c <> " "%char /\ c <> NUL) s.

(** The characters of the request line ["GET <path> HTTP/1.1"]. *)
Definition request_line (path : list ascii) : list ascii :=
  chars "GET " ++ path ++ chars " HTTP/1.1".

(** The characters [span keep] runs over. *)
Definition run (keep : ascii -> bool) (l : list ascii) : Prop :=
  Forall (fun c => c <> NUL /\ keep c = true) l.

(** For [strtok] with the delimiter set [delim]: delimiters to skip, and
    the characters of a token. *)
Definition delims (delim ds : list ascii) : Prop := run (is_delim delim) ds.

Definition token (delim tok : list ascii) : Prop :=
  tok <> [] /\ run (fun c => negb (is_delim delim c)) tok.

(** What tells ["GET / "] from a longer path: a slash between two
    spaces. *)
Definition sp_slash_sp : list ascii := chars " / ".

(** Decidable counterparts: [needle] is a prefix of [l], and [needle]
    occurs somewhere in [l]. *)
Fixpoint prefixb (needle l : list ascii) : bool :=
  match needle, l with
  | [], _ => true
  | _ :: _, [] => false
  | a :: needle', b :: l' => Ascii.eqb a b && prefixb needle' l'
  end.

Fixpoint occursb (needle l : list ascii) : bool :=
  prefixb needle l ||
  match l with
  | [] => false
  | _ :: t => occursb needle t
  end.

Definition CR : ascii := "013"%char.
Definition LF : ascii := "010"%char.

(** What follows the path and its space in a request without header
    lines: the version, the end of the line and the blank line. *)
Definition bare_tail : list ascii := chars "HTTP/1.1" ++ [CR; LF; CR; LF].

(** ** [StrClear] and the reading of the request in [loop] *)

(** The [for] loop of [StrClear]: [n] turns are left, the next one writes
    [str[i]]. *)
Fixpoint StrClear_loop (n i : nat) (str : list ascii) : list ascii :=
  match n with
  | 0 => str
  | S n' => StrClear_loop n' (S i) (store str i NUL)
  end.

(** The value the parameter [char length] takes when the caller passes the
    non-negative [int] [v]: [v] modulo 256, read as negative from 128 on
    where [char] is signed (it is on AVR, it is not on the Due). *)
Definition char_of_int (char_signed : bool) (v : nat) : Z :=
  let w := (Z.of_nat v mod 256)%Z in
  if char_signed && (128 <=? w)%Z then (w - 256)%Z else w.

(** [StrClear(str, length)]: the loop compares its [int] counter with the
    [char], so it takes as many turns as the [char] says, and none when
    that is negative. *)
Definition StrClear (char_signed : bool) (str : list ascii) (length : nat)
  : list ascii :=
  StrClear_loop (Z.to_nat (char_of_int char_signed length)) 0 str.

(** The [while (client.connected())] loop up to the point where the reply
    is sent: [incoming] lists the bytes the client delivers, in order. Each
    byte is stored while [i < REQ_BUF_SZ - 1]; a newline that ends a blank
    line ends the request. The result is [HTTP_req] at that point and the
    bytes not read; [None] when the bytes run out first (no reply is
    sent). *)
Fixpoint read_request (incoming HTTP_req : list ascii) (i : nat)
    (currentLineIsBlank : bool) : option (list ascii * list ascii) :=
  match incoming with
  | [] => None
  | c :: rest =>
      let '(HTTP_req, i) :=
        if i <? REQ_BUF_SZ - 1 then (store HTTP_req i c, S i)
        else (HTTP_req, i) in
      if Ascii.eqb c LF && currentLineIsBlank then Some (HTTP_req, rest)
      else
        let currentLineIsBlank :=
          if Ascii.eqb c LF then true
          else if negb (Ascii.eqb c CR) then false
          else currentLineIsBlank in
        read_request rest HTTP_req i currentLineIsBlank
  end.

(** One connection: [HTTP_req] starts zero-filled, [i] at 0 and
    [currentLineIsBlank] true. *)
Definition receive (incoming : list ascii) : option (list ascii * list ascii) :=
  read_request incoming (repeat NUL REQ_BUF_SZ) 0 true.

(** The literal ["sensorN"] of the sensor chain. *)
Definition sensor_name (n : nat) : list ascii := chars "sensor" ++ itoa n.

(** A header or request line as it is sent: no newline inside, at least
    one character other than a carriage return, then CR LF. *)
Definition text_line (l : list ascii) : Prop :=
  ~ In LF l /\ exists c, In c l /\ c <> CR.

Definition crlf_lines (lines : list (list ascii)) : list ascii :=
  concat (map (fun l => l ++ [CR; LF]) lines).

(** What [strtok] may do to a buffer: keep a byte, or put NUL over a space
    or a slash. *)
Definition only_delimiters_cut (m m' : list ascii) : Prop :=
  length m' = length m /\
  forall p, load m' p = load m p \/
            (load m' p = NUL /\
             (load m p = " "%char \/ load m p = "/"%char)).

(** A run of [k] slashes. *)
Definition slashes (k : nat) : list ascii := repeat "/"%char k.

(** A path with runs of slashes: [S k] of them before each segment
    [(k, s)], and [t] more at the end. *)
Fixpoint path_with_runs (segs : list (nat * list ascii)) (t : nat)
  : list ascii :=
  match segs with
  | [] => slashes t
  | (k, s) :: more => slashes (S k) ++ s ++ path_with_runs more t
  end.

(** What lies behind the slash that follows a segment, when there is
    one. *)
Definition behind (remaining : list (nat * list ascii)) (t : nat)
  : option (list ascii) :=
  match remaining, t with
  | (k, s) :: more, _ => Some (slashes k ++ s ++ path_with_runs more t)
  | [], S t' => Some (slashes t')
  | [], 0 => None
  end.

(** * Properties *)

(** ** C strings *)

Lemma until_nul_prefix (l : list ascii) :
  exists t, l = until_nul l ++ t.
Proof.
  induction l as [|c l [t IH]]; simpl.
  - now exists [].
  - destruct (Ascii.eqb c NUL).
    + now exists (c :: l).
    + exists t. simpl. now rewrite <- IH.
Qed.

Lemma until_nul_nuls (l : list ascii) (k : nat) :
  0 < k -> until_nul (l ++ repeat NUL k) = until_nul l.
Proof.
  intros Hk. induction l as [|c l IH]; simpl.
  - destruct k; [lia | reflexivity].
  - now rewrite IH.
Qed.

Lemma until_nul_app (s t : list ascii) :
  cstring s -> until_nul (s ++ t) = s ++ until_nul t.
Proof.
  unfold cstring. induction s as [|c s IH]; simpl; intros H; [reflexivity|].
  destruct (Ascii.eqb_spec c NUL) as [->|_].
  - exfalso. apply H. now left.
  - f_equal. apply IH. intros Hin. apply H. now right.
Qed.

Lemma until_nul_stop (s t : list ascii) :
  cstring s -> until_nul (s ++ NUL :: t) = s.
Proof.
  intros H. rewrite until_nul_app by assumption. simpl.
  now rewrite app_nil_r.
Qed.

Lemma cstring_chars_dec (s : list ascii) :
  forallb (fun c => negb (Ascii.eqb c NUL)) s = true -> cstring s.
Proof.
  unfold cstring. intros H Hin.
  rewrite forallb_forall in H. specialize (H _ Hin).
  now rewrite Ascii.eqb_refl in H.
Qed.

(** ** Substrings *)

Lemma prefixb_spec (n l : list ascii) :
  prefixb n l = true <-> exists post, l = n ++ post.
Proof.
  revert l. induction n as [|a n IH]; intros l; simpl.
  - split; [intros _; now exists l | reflexivity].
  - destruct l as [|b l].
    + split; [discriminate | intros [post H]; discriminate].
    + rewrite andb_true_iff, Ascii.eqb_eq, IH. split.
      * intros [-> [post ->]]. now exists post.
      * intros [post H]. injection H as -> ->. split; [reflexivity | now exists post].
Qed.

Lemma occursb_spec (n l : list ascii) :
  occursb n l = true <-> Substring n l.
Proof.
  unfold Substring. induction l as [|b l IH].
  - simpl. rewrite orb_false_r, prefixb_spec. split.
    + intros [post H]. now exists [], post.
    + intros [pre [post H]]. destruct pre; [now exists post | discriminate].
  - cbn [occursb]. rewrite orb_true_iff, prefixb_spec, IH. split.
    + intros [[post H] | [pre [post H]]].
      * now exists [], post.
      * exists (b :: pre), post. simpl. now rewrite H.
    + intros [pre [post H]]. destruct pre as [|a pre].
      * left. now exists post.
      * right. injection H as _ H. now exists pre, post.
Qed.

Lemma not_Substring_dec (n l : list ascii) :
  occursb n l = false -> ~ Substring n l.
Proof.
  intros H Hs. apply occursb_spec in Hs. congruence.
Qed.

Lemma Substring_of_prefix (n l t : list ascii) :
  Substring n l -> Substring n (l ++ t).
Proof.
  intros [pre [post ->]]. exists pre, (post ++ t).
  now rewrite <- !app_assoc.
Qed.

Lemma Substring_inner (a n b l : list ascii) :
  Substring (a ++ n ++ b) l -> Substring n l.
Proof.
  intros [pre [post ->]]. exists (pre ++ a), (b ++ post).
  now rewrite <- !app_assoc.
Qed.

(** ** [InStr] *)

(** Whenever the loop answers [true], the last [strlen str2] characters it
    has read are [str2]. *)
Lemma InStr_loop_sound (str2 : list ascii) :
  str2 <> [] ->
  forall rest pre f,
    f < length str2 ->
    InStr_loop str2 f rest = true ->
    Substring str2 (pre ++ firstn f str2 ++ rest).
Proof.
  intros Hne rest. induction rest as [|c rest IH]; intros pre f Hf H.
  - discriminate.
  - simpl in H. unfold char_at, strlen in H.
    destruct (Ascii.eqb_spec c (nth f str2 NUL)) as [Hc|_].
    + assert (Hsplit : firstn (S f) str2 = firstn f str2 ++ [c]).
      { rewrite Hc. clear -Hf. revert f Hf.
        induction str2 as [|a s IHs]; intros f Hf; simpl in Hf; [lia|].
        destruct f as [|f]; [reflexivity|].
        cbn [firstn nth app]. f_equal. apply IHs. lia. }
      destruct (Nat.eqb_spec (length str2) (S f)) as [Hlen|Hlen].
      * exists pre, rest.
        rewrite <- (firstn_all str2) at 2. rewrite Hlen, Hsplit.
        now rewrite <- !app_assoc.
      * specialize (IH pre (S f) ltac:(lia) H).
        rewrite Hsplit, <- app_assoc in IH. exact IH.
    + specialize (IH (pre ++ firstn f str2 ++ [c]) 0 ltac:(destruct str2; simpl; [congruence|lia]) H).
      simpl in IH. now rewrite <- !app_assoc in IH.
Qed.

(** [InStr] never answers [true] for a needle that does not occur. *)
Lemma InStr_sound (str1 str2 : list ascii) :
  InStr str1 str2 = true -> Substring str2 str1.
Proof.
  unfold InStr. destruct (strlen str1 <? strlen str2); [discriminate|].
  destruct str2 as [|a str2].
  - intros _. now exists [], str1.
  - intros H.
    apply (InStr_loop_sound (a :: str2) ltac:(discriminate) str1 [] 0) in H;
      [exact H | simpl; lia].
Qed.

Lemma InStr_loop_match (t todo done : list ascii) :
  todo <> [] ->
  InStr_loop (done ++ todo) (length done) (todo ++ t) = true.
Proof.
  revert done. induction todo as [|c todo IH]; intros done Hne; [congruence|].
  simpl. unfold char_at, strlen. rewrite nth_middle, Ascii.eqb_refl.
  destruct todo as [|c' todo].
  - rewrite length_app. simpl. rewrite Nat.add_1_r, Nat.eqb_refl. reflexivity.
  - rewrite length_app. cbn [length].
    destruct (Nat.eqb_spec (length done + S (S (length todo))) (S (length done)));
      [lia|].
    specialize (IH (done ++ [c]) ltac:(discriminate)).
    rewrite <- app_assoc, length_app in IH. simpl in IH.
    rewrite Nat.add_1_r in IH. exact IH.
Qed.

(** A haystack that begins with the (non-empty) needle is accepted. *)
Lemma InStr_leading (needle t : list ascii) :
  needle <> [] -> InStr (needle ++ t) needle = true.
Proof.
  intros Hne. unfold InStr, strlen. rewrite length_app.
  destruct (Nat.ltb_spec (length needle + length t) (length needle)); [lia|].
  exact (InStr_loop_match t needle [] Hne).
Qed.

(** With an empty needle the comparison is against the needle's
    terminator, which no character of a C string equals. *)
Lemma InStr_loop_empty_needle (str1 : list ascii) :
  cstring str1 -> InStr_loop [] 0 str1 = false.
Proof.
  unfold cstring. induction str1 as [|c s IH]; intros H; [reflexivity|].
  simpl. unfold char_at. simpl.
  destruct (Ascii.eqb_spec c NUL) as [->|_].
  - exfalso. apply H. now left.
  - apply IH. intros Hin. apply H. now right.
Qed.

Lemma InStr_empty_needle (str1 : list ascii) :
  cstring str1 -> InStr str1 [] = false.
Proof.
  intros H. unfold InStr. simpl. now apply InStr_loop_empty_needle.
Qed.

Lemma InStr_longer_needle (str1 str2 : list ascii) :
  length str1 < length str2 -> InStr str1 str2 = false.
Proof.
  intros H. unfold InStr, strlen.
  now destruct (Nat.ltb_spec (length str1) (length str2)); [|lia].
Qed.

(** C1. [InStr] is not the substring test: after a partial match it
    restarts behind the mismatching character. In ["aab"] the needle
    ["ab"] occurs at index 1 and is reported absent; so is ["GET / "] in
    the request ["GGET / HTTP/1.1"]. *)
Theorem InStr_misses_occurrence :
  (Substring (chars "ab") (chars "aab") /\
   InStr (chars "aab") (chars "ab") = false) /\
  (Substring (chars "GET / ") (chars "GGET / HTTP/1.1") /\
   InStr (chars "GGET / HTTP/1.1") (chars "GET / ") = false).
Proof.
  repeat split.
  - now exists (chars "a"), [].
  - now exists (chars "G"), (chars "HTTP/1.1").
Qed.

(** C7. For the empty needle [InStr] answers [false], although the empty
    string occurs in every haystack. *)
Theorem InStr_rejects_empty_needle :
  Substring (chars "") (chars "GET / ") /\
  InStr (chars "GET / ") (chars "") = false.
Proof.
  split.
  - now exists [], (chars "GET / ").
  - reflexivity.
Qed.

(** ** The request buffer *)

Lemma HTTP_req_string_eq (request : list ascii) :
  HTTP_req_string request = until_nul (firstn (REQ_BUF_SZ - 1) request).
Proof.
  unfold HTTP_req_string, HTTP_req_bytes, cstring_at. cbn [skipn].
  apply until_nul_nuls.
  pose proof (firstn_le_length (REQ_BUF_SZ - 1) request) as H.
  unfold REQ_BUF_SZ in *. lia.
Qed.

(** The buffer holds a prefix of the request. *)
Lemma HTTP_req_string_prefix (request : list ascii) :
  exists t, request = HTTP_req_string request ++ t.
Proof.
  rewrite HTTP_req_string_eq.
  destruct (until_nul_prefix (firstn (REQ_BUF_SZ - 1) request)) as [t Ht].
  exists (t ++ skipn (REQ_BUF_SZ - 1) request).
  rewrite app_assoc, <- Ht. symmetry. apply firstn_skipn.
Qed.

Lemma HTTP_req_string_leading (s rest : list ascii) :
  cstring s -> length s <= REQ_BUF_SZ - 1 ->
  exists t, HTTP_req_string (s ++ rest) = s ++ t.
Proof.
  intros Hs Hlen. rewrite HTTP_req_string_eq, firstn_app.
  rewrite firstn_all2 by exact Hlen.
  rewrite until_nul_app by exact Hs. eauto.
Qed.

Lemma InStr_buffer_leading (needle rest : list ascii) :
  needle <> [] -> cstring needle -> length needle <= REQ_BUF_SZ - 1 ->
  InStr (HTTP_req_string (needle ++ rest)) needle = true.
Proof.
  intros Hne Hs Hlen.
  destruct (HTTP_req_string_leading needle rest Hs Hlen) as [t ->].
  now apply InStr_leading.
Qed.

Lemma InStr_buffer_absent (needle request : list ascii) :
  ~ Substring needle request ->
  InStr (HTTP_req_string request) needle = false.
Proof.
  intros Hno. destruct (InStr (HTTP_req_string request) needle) eqn:E;
    [|reflexivity].
  exfalso. apply Hno. apply InStr_sound in E.
  destruct (HTTP_req_string_prefix request) as [t Ht].
  rewrite Ht. now apply Substring_of_prefix.
Qed.

Lemma occursb_cons (n : list ascii) (a : ascii) (l : list ascii) :
  occursb n (a :: l) = prefixb n (a :: l) || occursb n l.
Proof. reflexivity. Qed.

(** A needle that starts with a space cannot start inside a word. *)
Lemma occursb_skip_word (n p t : list ascii) :
  Forall (fun c => c <> " "%char) p ->
  occursb (" "%char :: n) (p ++ t) = occursb (" "%char :: n) t.
Proof.
  induction 1 as [|c p Hc _ IH]; [reflexivity|].
  cbn [app]. rewrite occursb_cons. cbn [prefixb].
  destruct (Ascii.eqb_spec " "%char c) as [<-|_]; [congruence|].
  exact IH.
Qed.

Lemma no_root_needle (request : list ascii) :
  occursb sp_slash_sp request = false ->
  ~ Substring (chars "GET / ") request.
Proof.
  intros H Hs. apply (Substring_inner (chars "GET") sp_slash_sp []) in Hs.
  apply occursb_spec in Hs. congruence.
Qed.

(** ** Route selection *)

Lemma select_root (rest : list ascii) :
  select_route (HTTP_req_string (chars "GET / " ++ rest)) = Root.
Proof.
  unfold select_route. rewrite InStr_buffer_leading; [reflexivity| | |].
  - discriminate.
  - apply cstring_chars_dec. reflexivity.
  - unfold REQ_BUF_SZ. simpl. lia.
Qed.

Lemma select_sensor (p rest : list ascii) :
  Forall (fun c => c <> " "%char) p ->
  ~ Substring sp_slash_sp (" "%char :: rest) ->
  select_route (HTTP_req_string (chars "GET /s" ++ p ++ " "%char :: rest))
  = Sensor.
Proof.
  intros Hp Hrest. unfold select_route.
  rewrite InStr_buffer_absent.
  - rewrite InStr_buffer_leading; [reflexivity| | |].
    + discriminate.
    + apply cstring_chars_dec. reflexivity.
    + unfold REQ_BUF_SZ. simpl. lia.
  - apply no_root_needle.
    change (chars "GET /s" ++ p ++ " "%char :: rest)
      with ("G" :: "E" :: "T" :: " " :: "/" :: "s" :: p ++ " " :: rest)%char.
    unfold sp_slash_sp. cbn [chars list_ascii_of_string].
    rewrite !occursb_cons. cbn [prefixb Ascii.eqb Bool.eqb andb orb].
    rewrite occursb_skip_word by exact Hp.
    destruct (occursb _ (" "%char :: rest)) eqn:E; [|reflexivity].
    exfalso. apply Hrest. now apply occursb_spec.
Qed.

Lemma select_report (rest : list ascii) :
  ~ Substring sp_slash_sp (" "%char :: rest) ->
  ~ Substring (chars "GET /s") rest ->
  select_route (HTTP_req_string (chars "GET /report " ++ rest)) = Report.
Proof.
  intros Hsp Hs. unfold select_route.
  rewrite InStr_buffer_absent.
  - rewrite InStr_buffer_absent.
    + rewrite InStr_buffer_leading; [reflexivity| | |].
      * discriminate.
      * apply cstring_chars_dec. reflexivity.
      * unfold REQ_BUF_SZ. simpl. lia.
    + intros H. apply occursb_spec in H. revert H.
      change (chars "GET /report " ++ rest)
        with ("G" :: "E" :: "T" :: " " :: "/" :: "r" :: "e" :: "p" :: "o"
                  :: "r" :: "t" :: " " :: rest)%char.
      cbn [chars list_ascii_of_string].
      rewrite !occursb_cons. cbn [prefixb Ascii.eqb Bool.eqb andb orb].
      intros H. apply Hs. now apply occursb_spec.
  - apply no_root_needle.
    change (chars "GET /report " ++ rest)
      with ("G" :: "E" :: "T" :: " " :: chars "/report" ++ " " :: rest)%char.
    unfold sp_slash_sp. cbn [chars list_ascii_of_string app].
    do 4 rewrite occursb_cons. cbn [prefixb Ascii.eqb Bool.eqb andb orb].
    change ("/" :: "r" :: "e" :: "p" :: "o" :: "r" :: "t" :: " " :: rest)%char
      with (chars "/report" ++ " "%char :: rest).
    rewrite occursb_skip_word.
    + destruct (occursb _ (" "%char :: rest)) eqn:E; [|reflexivity].
      exfalso. apply Hsp. now apply occursb_spec.
    + unfold chars. simpl.
      repeat (apply Forall_cons; [discriminate|]). apply Forall_nil.
Qed.

Lemma InStr_absent (str1 str2 : list ascii) :
  ~ Substring str2 str1 -> InStr str1 str2 = false.
Proof.
  intros H. destruct (InStr str1 str2) eqn:E; [|reflexivity].
  exfalso. apply H. now apply InStr_sound.
Qed.

(** With the sensor needle found, the sensor branch is taken exactly when
    the root test fails. *)
Lemma select_sensor_iff (b : list ascii) :
  InStr b (chars "GET /s") = true ->
  select_route b = Sensor <-> InStr b (chars "GET / ") = false.
Proof.
  intros Hs. unfold select_route. rewrite Hs.
  destruct (InStr b (chars "GET / ")); split; congruence.
Qed.

(** With the report needle found, the report branch is taken exactly when
    the root and the sensor test both fail. *)
Lemma select_report_iff (b : list ascii) :
  InStr b (chars "GET /report ") = true ->
  select_route b = Report <->
  InStr b (chars "GET / ") = false /\ InStr b (chars "GET /s") = false.
Proof.
  intros Hr. unfold select_route. rewrite Hr.
  destruct (InStr b (chars "GET / ")), (InStr b (chars "GET /s"));
    (split;
     [ intros H; first [discriminate H | now split]
     | intros [H1 H2];
       first [discriminate H1 | discriminate H2 | reflexivity] ]).
Qed.

Lemma buffer_leading (needle rest : list ascii) :
  forallb (fun c => negb (Ascii.eqb c NUL)) needle = true ->
  needle <> [] -> length needle <= REQ_BUF_SZ - 1 ->
  InStr (HTTP_req_string (needle ++ rest)) needle = true.
Proof.
  intros Hc Hne Hlen. apply InStr_buffer_leading; try assumption.
  now apply cstring_chars_dec.
Qed.

(** C4 (as amended). For every request ["GET <path> <rest>"], whatever the
    rest: the path ["/"] selects the root branch; a path that begins with
    ["/s"] selects the sensor branch exactly when the root test
    [InStr(HTTP_req, "GET / ")] fails, so whenever ["GET / "] does not
    occur in the stored bytes; the path ["/report"] itself selects the
    report branch exactly when the root and the sensor test both fail, so
    whenever neither ["GET / "] nor ["GET /s"] occurs in the stored bytes.
    The three tests run in the order root, sensor, report and the first
    that succeeds decides. *)
Theorem route_selection (path rest : list ascii) :
  let HTTP_req := HTTP_req_string (chars "GET " ++ path ++ " "%char :: rest) in
  (path = chars "/" -> select_route HTTP_req = Root) /\
  (forall p, path = chars "/s" ++ p ->
     (select_route HTTP_req = Sensor <->
      InStr HTTP_req (chars "GET / ") = false) /\
     (~ Substring (chars "GET / ") HTTP_req ->
      select_route HTTP_req = Sensor)) /\
  (path = chars "/report" ->
     (select_route HTTP_req = Report <->
      InStr HTTP_req (chars "GET / ") = false /\
      InStr HTTP_req (chars "GET /s") = false) /\
     (~ Substring (chars "GET / ") HTTP_req ->
      ~ Substring (chars "GET /s") HTTP_req ->
      select_route HTTP_req = Report)) /\
  (forall b,
      (InStr b (chars "GET / ") = true -> select_route b = Root) /\
      (InStr b (chars "GET / ") = false -> InStr b (chars "GET /s") = true ->
       select_route b = Sensor) /\
      (InStr b (chars "GET / ") = false -> InStr b (chars "GET /s") = false ->
       InStr b (chars "GET /report ") = true -> select_route b = Report)).
Proof.
  intros HTTP_req. subst HTTP_req. split; [|split; [|split]].
  - intros ->. apply (select_root rest).
  - intros p ->.
    assert (Hs : InStr (HTTP_req_string
                          (chars "GET " ++ (chars "/s" ++ p) ++ " "%char :: rest))
                       (chars "GET /s") = true).
    { change (chars "GET " ++ (chars "/s" ++ p) ++ " "%char :: rest)
        with (chars "GET /s" ++ p ++ " "%char :: rest).
      apply buffer_leading; [reflexivity | discriminate |].
      unfold REQ_BUF_SZ. simpl. lia. }
    split; [apply select_sensor_iff; exact Hs|].
    intros Hno. apply select_sensor_iff; [exact Hs|].
    now apply InStr_absent.
  - intros ->.
    assert (Hr : InStr (HTTP_req_string
                          (chars "GET " ++ chars "/report" ++ " "%char :: rest))
                       (chars "GET /report ") = true).
    { change (chars "GET " ++ chars "/report" ++ " "%char :: rest)
        with (chars "GET /report " ++ rest).
      apply buffer_leading; [reflexivity | discriminate |].
      unfold REQ_BUF_SZ. simpl. lia. }
    split; [apply select_report_iff; exact Hr|].
    intros Hno1 Hno2. apply select_report_iff; [exact Hr|].
    split; now apply InStr_absent.
  - intros b. unfold select_route. repeat split.
    + now intros ->.
    + now intros -> ->.
    + now intros -> -> ->.
Qed.

Lemma route_selection_witness :
  select_route
    (HTTP_req_string
       (chars "GET " ++ chars "/sensor2/temp" ++ " "%char :: bare_tail))
  = Sensor.
Proof.
  refine (proj2 (proj1 (proj2 (route_selection (chars "/sensor2/temp")
                                 bare_tail))
                       (chars "ensor2/temp") eq_refl) _).
  apply not_Substring_dec. reflexivity.
Defined.

(** C4, as stated, fails three ways. The path ["/reports"] begins with
    ["/report"], yet no branch is taken: the report test asks for the space
    right behind ["/report"]. The path ["/s"] begins with ["/s"], yet with
    ["GET / "] in the next line the root branch is taken; and the path
    ["/report"], with ["GET /s"] in the next line, gets the sensor
    branch: the tests search the whole buffer, in their fixed order. *)
Lemma route_counterexamples :
  (prefixb (chars "/report") (chars "/reports") = true /\
   select_route
     (HTTP_req_string
        (chars "GET " ++ chars "/reports" ++ " "%char :: bare_tail))
   <> Report) /\
  (prefixb (chars "/s") (chars "/s") = true /\
   select_route
     (HTTP_req_string
        (chars "GET " ++ chars "/s" ++ " "%char
         :: chars "HTTP/1.1" ++ [CR; LF] ++ chars "GET / "))
   <> Sensor) /\
  select_route
    (HTTP_req_string
       (chars "GET " ++ chars "/report" ++ " "%char
        :: chars "HTTP/1.1" ++ [CR; LF] ++ chars "GET /s"))
  <> Report.
Proof.
  repeat split; try reflexivity; vm_compute; discriminate.
Qed.

(** ** [HandleParms] *)

(** With two assigned segments or more (and every segment the count
    announces assigned) the run is defined, and an error leaves 0 in
    [ret]. *)
Lemma HandleParms_run_defined (parms : list (list ascii)) (num_parms : nat)
    (sensors : list DHT) :
  2 <= num_parms -> num_parms <= length parms ->
  length sensors = NUM_SENSORS ->
  exists err ret,
    HandleParms_run parms num_parms sensors = Some (err, ret) /\
    (err <> NoError -> ret = float_zero).
Proof.
  intros Hn Hlen Hs.
  destruct parms as [|s [|op tl]]; simpl in Hlen; try lia.
  do 6 (destruct sensors as [|? sensors]; try discriminate).
  destruct sensors; try discriminate.
  unfold HandleParms_run, option_step.
  destruct (Nat.ltb_spec 2 num_parms) as [H2|H2].
  - destruct tl as [|opt tl]; [simpl in Hlen; lia|].
    cbn [nth_error bind].
    destruct (streq opt "c"), (streq opt "f"); cbn [bind];
      unfold sensor_step;
      destruct (streq s "sensor0"), (streq s "sensor1"), (streq s "sensor2"),
               (streq s "sensor3"), (streq s "sensor4"), (streq s "sensor5");
      cbn; unfold operation_step;
      destruct (streq op "temp"), (streq op "humidity"); cbn;
      do 2 eexists; (split; [reflexivity|]);
      unfold NoError; intros; solve [reflexivity | congruence].
  - cbn [nth_error bind]. unfold sensor_step;
      destruct (streq s "sensor0"), (streq s "sensor1"), (streq s "sensor2"),
               (streq s "sensor3"), (streq s "sensor4"), (streq s "sensor5");
      cbn; unfold operation_step;
      destruct (streq op "temp"), (streq op "humidity"); cbn;
      do 2 eexists; (split; [reflexivity|]);
      unfold NoError; intros; solve [reflexivity | congruence].
Qed.

(** C3 (as amended). For every segment sequence with count at least 2,
    [HandleParms] returns a float; when it has detected an error that
    float is exactly 0, whichever the error: the classification stays in
    the local [err] and is not part of what the caller receives. *)
Theorem HandleParms_error_value (parms : list (list ascii)) (num_parms : nat)
    (sensors : list DHT) :
  2 <= num_parms -> num_parms <= length parms ->
  length sensors = NUM_SENSORS ->
  exists err ret,
    HandleParms_err parms num_parms sensors = Some err /\
    HandleParms parms num_parms sensors = Some ret /\
    (err <> NoError -> ret = float_zero).
Proof.
  intros Hn Hlen Hs.
  destruct (HandleParms_run_defined parms num_parms sensors Hn Hlen Hs)
    as [err [ret [Hrun Hzero]]].
  exists err, ret. unfold HandleParms_err, HandleParms. rewrite Hrun.
  repeat split. exact Hzero.
Qed.

Lemma HandleParms_error_value_witness :
  exists err ret,
    HandleParms_err [chars "sensor1"; chars "speed"] 2 bench = Some err /\
    HandleParms [chars "sensor1"; chars "speed"] 2 bench = Some ret /\
    (err <> NoError -> ret = float_zero).
Proof.
  apply (HandleParms_error_value [chars "sensor1"; chars "speed"] 2 bench).
  - lia.
  - simpl. lia.
  - reflexivity.
Defined.

(** C3, as stated, fails: nothing computed from the result of
    [HandleParms] tells which error occurred, since an unknown sensor and
    an unknown operation return the same value. *)
Lemma error_not_observable :
  ~ exists observe : option float -> option nat,
      forall parms num_parms,
        2 <= num_parms ->
        observe (HandleParms parms num_parms bench)
        = HandleParms_err parms num_parms bench.
Proof.
  intros [observe H].
  pose proof (H [chars "sensor9"; chars "temp"] 2 (le_n 2)) as H1.
  pose proof (H [chars "sensor1"; chars "speed"] 2 (le_n 2)) as H2.
  vm_compute in H1, H2. congruence.
Qed.

(** The bench readings are binary32 values: 72 = 9437184 / 2^17,
    45.5 = 11927552 / 2^18, and 11639194 / 2^19 is the binary32 nearest to
    22.2 (its neighbours are further away). *)
Lemma bench_values :
  is_binary32 f72_0 = true /\ is_binary32 f22_2 = true /\
  is_binary32 f45_5 = true /\
  (9437184 = 72 * 2 ^ 17)%Z /\ (2 * 11927552 = 91 * 2 ^ 18)%Z /\
  (Z.abs (10 * 11639194 - 222 * 2 ^ 19) < Z.abs (10 * 11639193 - 222 * 2 ^ 19))%Z /\
  (Z.abs (10 * 11639194 - 222 * 2 ^ 19) < Z.abs (10 * 11639195 - 222 * 2 ^ 19))%Z.
Proof. repeat split. Qed.

(** C5. The six literal dispatch scenarios on the bench (sensor 0 at
    72.0 F / 22.2 C, sensor 3 at 45.5 % humidity): the value returned and
    the error the run ends with. *)
Theorem dispatch_scenarios :
  HandleParms_run [chars "sensor0"; chars "temp"] 2 bench
    = Some (NoError, f72_0) /\
  HandleParms_run [chars "sensor0"; chars "temp"; chars "c"] 3 bench
    = Some (NoError, f22_2) /\
  HandleParms_run [chars "sensor3"; chars "humidity"] 2 bench
    = Some (NoError, f45_5) /\
  HandleParms_run [chars "sensor9"; chars "temp"] 2 bench
    = Some (InvalidSensor, float_zero) /\
  HandleParms_run [chars "sensor1"; chars "speed"] 2 bench
    = Some (InvalidOperation, float_zero) /\
  HandleParms_run [chars "sensor1"; chars "temp"; chars "k"] 3 bench
    = Some (InvalidOption, float_zero).
Proof.
  repeat split; reflexivity.
Qed.

(** The sensor chain overwrites whatever the option step left in [err]. *)
Lemma sensor_step_overwrites (s : list ascii) (err : nat) :
  snd (sensor_step s err) = None -> fst (sensor_step s err) = InvalidSensor.
Proof.
  unfold sensor_step.
  destruct (streq s "sensor0"), (streq s "sensor1"), (streq s "sensor2"),
           (streq s "sensor3"), (streq s "sensor4"), (streq s "sensor5");
    simpl; intros H; try discriminate; reflexivity.
Qed.

(** C6. With both the option and the sensor invalid the run ends with
    [InvalidSensor]: the later assignment [err = 1] replaces the
    [InvalidOption] detected first. *)
Theorem invalid_option_overwritten :
  HandleParms_err [chars "sensor9"; chars "temp"; chars "k"] 3 bench
  = Some InvalidSensor.
Proof. reflexivity. Qed.

(** Both formatters replace a failed read by 0, field by field. *)
Lemma checked_readings_not_nan (dht : DHT) :
  let '(f, c, h) := checked_readings dht in
  isnan f = false /\ isnan c = false /\ isnan h = false.
Proof.
  unfold checked_readings.
  destruct (isnan (readTemperature dht true)) eqn:Ef,
           (isnan (readTemperature dht false)) eqn:Ec,
           (isnan (readHumidity dht)) eqn:Eh; repeat split; assumption || reflexivity.
Qed.

(** [HandleParms] hands a valid read through unchanged. *)
Lemma HandleParms_temp_passthrough (d : DHT) (rest : list DHT) :
  HandleParms [chars "sensor0"; chars "temp"] 2 (d :: rest)
  = Some (readTemperature d true).
Proof. reflexivity. Qed.

(** C2. On the single-sensor route a failed read is not replaced: for the
    valid request ["GET /sensor0/temp HTTP/1.1"], with sensor 0 failing,
    the value handed to [client.println] is not-a-number. *)
Theorem sensor_route_keeps_nan :
  exists response,
    sensor_branch
      (HTTP_req_bytes (chars "GET /sensor0/temp " ++ bare_tail)) failing_bench
    = Some response /\ isnan response = true.
Proof.
  exists S754_nan. split; reflexivity.
Qed.

(** ** The label buffer *)

(** C10. Whatever the sensor index, [sprintf] writes past the end of
    [label]: the array has one byte, and ["DHT"], the digits and the
    terminator go to offsets 0, 1, 2, ... *)
Theorem label_overrun (j : nat) :
  length label = 1 /\
  4 < length (sprintf_DHT j) /\
  ~ in_bounds (length label) (write_offsets (sprintf_DHT j)).
Proof.
  assert (Hlen : 4 < length (sprintf_DHT j)).
  { unfold sprintf_DHT, cstr_image. rewrite !length_app. simpl.
    assert (0 < length (itoa j)); [|lia].
    unfold itoa, chars.
    destruct (NilZero.string_of_uint (Nat.to_uint j)) eqn:E; [|simpl; lia].
    exfalso. unfold NilZero.string_of_uint in E.
    destruct (Nat.to_uint j) eqn:Eu; simpl in E; discriminate. }
  repeat split; [exact Hlen|].
  unfold in_bounds, write_offsets. intros H.
  destruct (length (sprintf_DHT j)) as [|[|n]]; try lia.
  simpl in H. inversion H as [|? ? _ H']. inversion H' as [|? ? Hk _].
  unfold label in Hk. simpl in Hk. lia.
Qed.

(** ** Memory and [strtok] *)

Lemma skipn_at (pre x : list ascii) : skipn (length pre) (pre ++ x) = x.
Proof. induction pre; simpl; auto. Qed.

Lemma load_at (pre x : list ascii) (c : ascii) :
  load (pre ++ c :: x) (length pre) = c.
Proof. unfold load. apply nth_middle. Qed.

Lemma store_at (pre x : list ascii) (a c : ascii) :
  store (pre ++ a :: x) (length pre) c = pre ++ c :: x.
Proof. induction pre; simpl; [reflexivity | now f_equal]. Qed.

Lemma cstring_at_stop (pre s t : list ascii) :
  cstring s -> cstring_at (pre ++ s ++ NUL :: t) (length pre) = s.
Proof.
  intros H. unfold cstring_at. rewrite skipn_at. now apply until_nul_stop.
Qed.

Lemma span_run (keep : ascii -> bool) (l x : list ascii) :
  run keep l -> span keep (l ++ x) = length l + span keep x.
Proof.
  induction 1 as [|c l [Hc Hk] _ IH]; [reflexivity|].
  simpl. destruct (Ascii.eqb_spec c NUL) as [E|_]; [contradiction|].
  rewrite Hk. simpl. now rewrite IH.
Qed.

Lemma span_stop (keep : ascii -> bool) (d : ascii) (x : list ascii) :
  d = NUL \/ keep d = false -> span keep (d :: x) = 0.
Proof.
  intros [-> | H]; simpl; [reflexivity|].
  rewrite H. now rewrite andb_false_r.
Qed.

Section Strtok.

Variable delim : list ascii.

Lemma token_head (tok x : list ascii) :
  token delim tok -> exists c t, tok ++ x = c :: t /\ c <> NUL /\ is_delim delim c = false.
Proof.
  intros [Hne Hrun]. destruct tok as [|c tok]; [congruence|].
  inversion Hrun as [|? ? [Hc Hk] _]; subst.
  exists c, (tok ++ x). repeat split; [exact Hc|].
  now apply negb_true_iff in Hk.
Qed.

Lemma strtok_scan (pre ds tok : list ascii) (d : ascii) (rest : list ascii) :
  delims delim ds -> token delim tok -> d = NUL \/ is_delim delim d = true ->
  let m := pre ++ ds ++ tok ++ d :: rest in
  length pre + strspn m (length pre) delim = length (pre ++ ds) /\
  load m (length (pre ++ ds)) <> NUL /\
  length (pre ++ ds) + strcspn m (length (pre ++ ds)) delim
  = length ((pre ++ ds) ++ tok) /\
  load m (length ((pre ++ ds) ++ tok)) = d.
Proof.
  intros Hds Htok Hd m. subst m.
  destruct (token_head tok (d :: rest) Htok) as [c [t [Ehd [Hc Hk]]]].
  repeat split.
  - unfold strspn. rewrite skipn_at, span_run by exact Hds.
    rewrite Ehd, span_stop by (now right). rewrite length_app. lia.
  - rewrite app_assoc, Ehd, load_at. exact Hc.
  - unfold strcspn. rewrite app_assoc, skipn_at.
    rewrite span_run by apply Htok.
    rewrite span_stop, (length_app (pre ++ ds)); [lia|].
    destruct Hd as [-> | Hd]; [now left | right; now rewrite Hd].
  - rewrite app_assoc, (app_assoc (pre ++ ds)). apply load_at.
Qed.

(** A token followed by a delimiter: the delimiter becomes NUL and the
    scan will resume behind it. *)
Lemma strtok_from_token (pre ds tok : list ascii) (d : ascii) (rest : list ascii) :
  delims delim ds -> token delim tok -> d <> NUL -> is_delim delim d = true ->
  strtok_from (pre ++ ds ++ tok ++ d :: rest) (length pre) delim
  = (mkTok (pre ++ ds ++ tok ++ NUL :: rest)
           (Some (S (length ((pre ++ ds) ++ tok)))),
     Some (length (pre ++ ds))).
Proof.
  intros Hds Htok Hd Hdel.
  destruct (strtok_scan pre ds tok d rest Hds Htok (or_intror Hdel))
    as [Hb [Hlb [He Hle]]].
  unfold strtok_from. rewrite Hb.
  destruct (Ascii.eqb_spec (load (pre ++ ds ++ tok ++ d :: rest)
                                 (length (pre ++ ds))) NUL) as [E|_];
    [contradiction|].
  rewrite He, Hle.
  destruct (Ascii.eqb_spec d NUL) as [E|_]; [contradiction|].
  do 2 f_equal.
  rewrite app_assoc, (app_assoc (pre ++ ds)), store_at.
  now rewrite <- !app_assoc.
Qed.

(** A token that runs up to the terminator: nothing is written and the
    scan stays on the terminator. *)
Lemma strtok_from_last (pre ds tok rest : list ascii) :
  delims delim ds -> token delim tok ->
  strtok_from (pre ++ ds ++ tok ++ NUL :: rest) (length pre) delim
  = (mkTok (pre ++ ds ++ tok ++ NUL :: rest)
           (Some (length ((pre ++ ds) ++ tok))),
     Some (length (pre ++ ds))).
Proof.
  intros Hds Htok.
  destruct (strtok_scan pre ds tok NUL rest Hds Htok (or_introl eq_refl))
    as [Hb [Hlb [He Hle]]].
  unfold strtok_from. rewrite Hb.
  destruct (Ascii.eqb_spec (load (pre ++ ds ++ tok ++ NUL :: rest)
                                 (length (pre ++ ds))) NUL) as [E|_];
    [contradiction|].
  rewrite He, Hle. reflexivity.
Qed.

(** On the terminator: no token. *)
Lemma strtok_from_end (pre rest : list ascii) :
  strtok_from (pre ++ NUL :: rest) (length pre) delim
  = (mkTok (pre ++ NUL :: rest) (Some (length pre)), None).
Proof.
  unfold strtok_from, strspn. rewrite skipn_at.
  rewrite span_stop by (now left). rewrite Nat.add_0_r, load_at.
  reflexivity.
Qed.

End Strtok.

(** ** [GetParms] *)

Lemma segment_cstring (s : list ascii) : segment s -> cstring s.
Proof.
  intros [_ H] Hin. rewrite Forall_forall in H.
  destruct (H _ Hin) as [_ [_ Hn]]. now apply Hn.
Qed.

Lemma segment_token (s : list ascii) : segment s -> token (chars "/") s.
Proof.
  intros [Hne H]. split; [exact Hne|].
  unfold run. rewrite Forall_forall in *. intros c Hc.
  destruct (H c Hc) as [Hslash [_ Hnul]]. split; [exact Hnul|].
  unfold is_delim, chars. simpl.
  destruct (Ascii.eqb_spec c "/"%char); [contradiction | reflexivity].
Qed.

Lemma path_of_cons (s : list ascii) (more : list (list ascii)) :
  path_of (s :: more) = "/"%char :: s ++ path_of more.
Proof.
  reflexivity.
Qed.

Lemma path_token (s : list ascii) (more : list (list ascii)) :
  Forall segment (s :: more) -> token (chars " ") (path_of (s :: more)).
Proof.
  intros H. split; [rewrite path_of_cons; discriminate|].
  unfold run. induction H as [|x l [_ Hx] _ IH]; [constructor|].
  rewrite path_of_cons. constructor; [split; [discriminate | reflexivity]|].
  apply Forall_app. split; [|exact IH].
  rewrite Forall_forall in *. intros c Hc.
  destruct (Hx c Hc) as [_ [Hsp Hnul]]. split; [exact Hnul|].
  unfold is_delim, chars. simpl.
  destruct (Ascii.eqb_spec c " "%char); [contradiction | reflexivity].
Qed.

Lemma array_set_at (done slots : list (option ptr)) (x : option ptr) (w : ptr) :
  array_set (done ++ x :: slots) (length done) w = done ++ Some w :: slots.
Proof. induction done; simpl; [reflexivity | now f_equal]. Qed.

Lemma parm_strings_assigned (m : list ascii) (ws : list ptr)
    (slots : list (option ptr)) :
  parm_strings m (map Some ws ++ slots) (length ws)
  = Some (map (cstring_at m) ws).
Proof.
  induction ws as [|w ws IH]; simpl; [reflexivity|]. now rewrite IH.
Qed.

(** The loop never runs out of turns and assigns below [num_parms] only,
    whatever the buffer holds. *)
Lemma GetParms_loop_safe (num_parms fuel : nat) :
  forall i word tk parms writes,
    num_parms - i < fuel -> i <= num_parms ->
    Forall (fun k => k < num_parms) writes ->
    exists r,
      GetParms_loop fuel num_parms i word tk parms writes = Some r /\
      Forall (fun k => k < num_parms) (p_writes r) /\
      p_count r <= num_parms /\
      length (p_parms r) = length parms.
Proof.
  induction fuel as [|fuel IH]; intros i word tk parms writes Hf Hi Hw; [lia|].
  cbn [GetParms_loop]. destruct word as [w|].
  - destruct (Nat.ltb_spec i num_parms) as [Hlt|Hge].
    + destruct (strtok tk None (chars "/")) as [tk' word'].
      destruct (IH (S i) word' tk' (array_set parms i w) (writes ++ [i]))
        as [r [Hr [Hwr [Hc Hl]]]]; [lia | lia | |].
      * apply Forall_app. split; [exact Hw | now constructor].
      * exists r. repeat split; try assumption. rewrite Hl.
        clear. revert i. induction parms as [|x parms IHp]; intros [|i];
          simpl; auto.
    + eexists. repeat split; simpl; [exact Hw | lia].
  - eexists. repeat split; simpl; [exact Hw | lia].
Qed.

Lemma GetParms_safe (req : list ascii) (parms : list (option ptr))
    (num_parms : nat) :
  exists r,
    GetParms req parms num_parms = Some r /\
    Forall (fun k => k < num_parms) (p_writes r) /\
    p_count r <= num_parms /\
    length (p_parms r) = length parms.
Proof.
  unfold GetParms.
  destruct (strtok (mkTok req None) (Some 0) (chars " ")) as [t1 w1].
  destruct (strtok t1 None (chars " ")) as [t2 w2].
  destruct (strtok t2 w2 (chars "/")) as [t3 w3].
  apply GetParms_loop_safe; [lia | lia | constructor].
Qed.

Lemma parsed_eq (c c' : nat) (p p' : list (option ptr)) (t t' : tok_state)
    (w w' : list nat) (d d' : bool) :
  c = c' -> p = p' -> t = t' -> w = w' -> d = d' ->
  Some (mkParsed c p t w d) = Some (mkParsed c' p' t' w' d').
Proof. now intros -> -> -> -> ->. Qed.

(** The loop on a buffer in which [strtok] has just delimited the segment
    [cur] at [length pre] and the segments [remaining] lie behind it. *)
Lemma GetParms_loop_segments (tail : list ascii) (num_parms : nat)
    (remaining : list (list ascii)) :
  forall cur pre fuel i done slots writes,
    segment cur -> Forall segment remaining ->
    length done = i -> num_parms - i <= length slots -> num_parms - i < fuel ->
    exists ws slots' t sv',
      GetParms_loop fuel num_parms i (Some (length pre))
        (mkTok (pre ++ cur ++ NUL ::
                  match remaining with
                  | [] => tail
                  | r :: more => r ++ path_of more ++ NUL :: tail
                  end)
               (Some match remaining with
                     | [] => length (pre ++ cur)
                     | _ :: _ => S (length (pre ++ cur))
                     end))
        (done ++ slots) writes
      = Some (mkParsed (i + length ws) (done ++ map Some ws ++ slots')
                (mkTok (pre ++ cur ++ NUL :: t) sv')
                (writes ++ seq i (length ws))
                (num_parms - i <? S (length remaining))) /\
      map (cstring_at (pre ++ cur ++ NUL :: t)) ws
      = firstn (num_parms - i) (cur :: remaining) /\
      length (map Some ws ++ slots') = length slots.
Proof.
  induction remaining as [|r more IH];
    intros cur pre fuel i done slots writes Hcur Hrem Hdone Hslots Hfuel;
    (destruct fuel as [|fuel]; [lia|]); cbn [GetParms_loop];
    (destruct (Nat.ltb_spec i num_parms) as [Hlt|Hge];
     [| exists [], slots; do 2 eexists; simpl;
        replace (num_parms - i) with 0 by lia;
        rewrite Nat.add_0_r, app_nil_r; repeat split ]).
  - (* the last segment *)
    destruct slots as [|x slots]; [simpl in Hslots; lia|].
    rewrite <- Hdone, array_set_at.
    unfold strtok. cbn [saveptr buf].
    rewrite (app_assoc pre cur), strtok_from_end.
    destruct fuel as [|fuel]; [lia|]. cbn [GetParms_loop].
    exists [length pre], slots, tail. eexists.
    rewrite <- app_assoc. cbn [length map app seq].
    rewrite Nat.add_1_r. repeat split.
    + do 2 f_equal. rewrite Hdone.
      destruct (Nat.ltb_spec (num_parms - i) 1); [lia | reflexivity].
    + rewrite cstring_at_stop by now apply segment_cstring.
      destruct (num_parms - length done) eqn:E; [lia|]. simpl.
      now destruct n.
  - (* a segment with more behind it *)
    destruct slots as [|x slots]; [simpl in Hslots; lia|].
    rewrite <- Hdone, array_set_at.
    unfold strtok. cbn [saveptr buf].
    inversion Hrem as [|? ? Hr Hmore]; subst.
    pose (pre' := pre ++ cur ++ [NUL]).
    assert (Epre : S (length (pre ++ cur)) = length pre').
    { unfold pre'. rewrite !length_app. simpl. lia. }
    assert (Hfirst : forall k, k <> 0 ->
              firstn k (cur :: r :: more) = cur :: firstn (k - 1) (r :: more)).
    { intros [|k] Hk; [congruence|]. cbn [firstn].
      replace (S k - 1) with k by lia. reflexivity. }
    destruct more as [|q more].
    + (* the next one is the last *)
      replace (pre ++ cur ++ NUL :: r ++ path_of [] ++ NUL :: tail)
        with (pre' ++ [] ++ r ++ NUL :: tail)
        by (unfold pre'; now rewrite <- !app_assoc).
      rewrite Epre, strtok_from_last;
        [| constructor | now apply segment_token].
      rewrite app_nil_r.
      destruct (IH r pre' fuel (S (length done)) (done ++ [Some (length pre)])
                   slots (writes ++ [length done]) Hr Hmore)
        as [ws [slots' [t [sv' [Hloop [Hstr Hlen]]]]]];
        [rewrite length_app; simpl; lia | simpl in Hslots; lia | lia |].
      replace ((done ++ [Some (length pre)]) ++ slots)
        with (done ++ Some (length pre) :: slots) in Hloop
        by (now rewrite <- app_assoc).
      exists (length pre :: ws), slots', (r ++ NUL :: t), sv'.
      cbn [app]. split; [etransitivity; [exact Hloop|] | split].
      * apply parsed_eq.
        -- cbn [length]. lia.
        -- now rewrite <- app_assoc.
        -- unfold pre'. now rewrite <- !app_assoc.
        -- now rewrite <- app_assoc.
        -- cbn [length].
           destruct (Nat.ltb_spec (num_parms - S (length done)) 1),
                    (Nat.ltb_spec (num_parms - length done) 2);
             reflexivity || lia.
      * cbn [map]. rewrite cstring_at_stop by now apply segment_cstring.
        rewrite Hfirst by lia.
        replace (num_parms - length done - 1)
          with (num_parms - S (length done)) by lia.
        f_equal. rewrite <- Hstr. unfold pre'.
        now rewrite <- !app_assoc.
      * cbn [map app length] in Hlen |- *. now rewrite Hlen.
    + (* the next one is followed by a slash *)
      rewrite path_of_cons.
      replace (pre ++ cur ++ NUL :: r ++ ("/"%char :: q ++ path_of more)
                   ++ NUL :: tail)
        with (pre' ++ [] ++ r ++ "/"%char ::
                   (q ++ path_of more ++ NUL :: tail))
        by (unfold pre'; cbn [app]; now rewrite <- !app_assoc).
      rewrite Epre, strtok_from_token;
        [| constructor | now apply segment_token | discriminate | reflexivity].
      rewrite app_nil_r.
      destruct (IH r pre' fuel (S (length done)) (done ++ [Some (length pre)])
                   slots (writes ++ [length done]) Hr Hmore)
        as [ws [slots' [t [sv' [Hloop [Hstr Hlen]]]]]];
        [rewrite length_app; simpl; lia | simpl in Hslots; lia | lia |].
      replace ((done ++ [Some (length pre)]) ++ slots)
        with (done ++ Some (length pre) :: slots) in Hloop
        by (now rewrite <- app_assoc).
      exists (length pre :: ws), slots', (r ++ NUL :: t), sv'.
      cbn [app]. split; [etransitivity; [exact Hloop|] | split].
      * apply parsed_eq.
        -- cbn [length]. lia.
        -- now rewrite <- app_assoc.
        -- unfold pre'. now rewrite <- !app_assoc.
        -- now rewrite <- app_assoc.
        -- cbn [length].
           destruct (Nat.ltb_spec (num_parms - S (length done))
                                  (S (S (length more)))),
                    (Nat.ltb_spec (num_parms - length done)
                                  (S (S (S (length more)))));
             reflexivity || lia.
      * cbn [map]. rewrite cstring_at_stop by now apply segment_cstring.
        rewrite Hfirst by lia.
        replace (num_parms - length done - 1)
          with (num_parms - S (length done)) by lia.
        f_equal. rewrite <- Hstr. unfold pre'.
        now rewrite <- !app_assoc.
      * cbn [map app length] in Hlen |- *. now rewrite Hlen.
Qed.

(** [GetParms] on ["GET /s1/.../sn <tail>"]: the first [num_parms]
    segments, in order, each read back from the buffer as [strtok] left
    it. *)
Lemma GetParms_segments (s1 : list ascii) (segs : list (list ascii))
    (tail : list ascii) (num_parms : nat) (parms : list (option ptr)) :
  Forall segment (s1 :: segs) -> num_parms <= length parms ->
  exists r,
    GetParms (chars "GET " ++ path_of (s1 :: segs) ++ " "%char :: tail)
             parms num_parms = Some r /\
    p_count r = Nat.min num_parms (length (s1 :: segs)) /\
    parm_strings (buf (p_tok r)) (p_parms r) (p_count r)
    = Some (firstn num_parms (s1 :: segs)) /\
    p_writes r = seq 0 (p_count r) /\
    p_diag r = (num_parms <? length (s1 :: segs)) /\
    length (p_parms r) = length parms.
Proof.
  intros Hsegs Hlen.
  pose proof (path_token s1 segs Hsegs) as Hpath.
  inversion Hsegs as [|? ? Hs1 Hrest]; subst.
  set (P := chars "GET" ++ [NUL]).
  set (path := path_of (s1 :: segs)) in *.
  assert (Hget : token (chars " ") (chars "GET")).
  { split; [discriminate|]. unfold run, chars. simpl.
    repeat (apply Forall_cons; [split; [discriminate | reflexivity]|]).
    apply Forall_nil. }
  assert (E1 : strtok (mkTok (chars "GET " ++ path ++ " "%char :: tail) None)
                      (Some 0) (chars " ")
               = (mkTok (P ++ path ++ " "%char :: tail) (Some (length P)),
                  Some 0)).
  { exact (strtok_from_token (chars " ") [] [] (chars "GET") " "%char
             (path ++ " "%char :: tail) (Forall_nil _) Hget
             ltac:(discriminate) eq_refl). }
  assert (E2 : strtok (mkTok (P ++ path ++ " "%char :: tail) (Some (length P)))
                      None (chars " ")
               = (mkTok (P ++ path ++ NUL :: tail)
                        (Some (S (length (P ++ path)))),
                  Some (length P))).
  { exact (strtok_from_token (chars " ") P [] path " "%char tail
             (Forall_nil _) Hpath ltac:(discriminate) eq_refl). }
  destruct (GetParms_loop_segments tail num_parms segs s1 (P ++ chars "/")
              (S num_parms) 0 [] parms [] Hs1 Hrest eq_refl
              ltac:(lia) ltac:(lia))
    as [ws [slots' [t [sv' [Hloop [Hstr Hl]]]]]].
  assert (Hws : length ws = Nat.min num_parms (length (s1 :: segs))).
  { rewrite <- (length_map (cstring_at ((P ++ chars "/") ++ s1 ++ NUL :: t))).
    rewrite Hstr, length_firstn. now rewrite Nat.sub_0_r. }
  eexists. split.
  - unfold GetParms. rewrite E1. cbv beta iota. rewrite E2. cbv beta iota.
    subst path. rewrite path_of_cons.
    destruct segs as [|q more].
    + replace (P ++ ("/"%char :: s1 ++ path_of []) ++ NUL :: tail)
        with (P ++ chars "/" ++ s1 ++ NUL :: tail)
        by (cbn [path_of map concat chars list_ascii_of_string app];
            now rewrite <- !app_assoc).
      unfold strtok at 1. cbn [buf saveptr].
      rewrite strtok_from_last;
        [| repeat constructor; discriminate | now apply segment_token].
      exact Hloop.
    + rewrite path_of_cons.
      replace (P ++ ("/"%char :: s1 ++ "/"%char :: q ++ path_of more)
                 ++ NUL :: tail)
        with (P ++ chars "/" ++ s1 ++ "/"%char ::
                (q ++ path_of more ++ NUL :: tail))
        by (cbn [chars list_ascii_of_string app];
            repeat (rewrite <- app_assoc || rewrite <- app_comm_cons);
            reflexivity).
      unfold strtok at 1. cbn [buf saveptr].
      rewrite strtok_from_token;
        [| repeat constructor; discriminate | now apply segment_token
         | discriminate | reflexivity].
      exact Hloop.
  - cbn [p_count p_parms p_tok p_writes p_diag buf app Nat.add].
    repeat split.
    + exact Hws.
    + rewrite parm_strings_assigned, Hstr. now rewrite Nat.sub_0_r.
    + now rewrite Nat.sub_0_r.
    + exact Hl.
Qed.

(** C8. For the request line ["GET /segA/segB/segC HTTP/1.1"] with three
    segments (non-empty, without slash, space or NUL), [GetParms] called
    as [loop] calls it returns 3 and leaves exactly [segA], [segB], [segC],
    in that order, in the first three entries of the array; for the path
    ["/"] it returns 0. *)
Theorem GetParms_three_segments (segA segB segC : list ascii) :
  segment segA -> segment segB -> segment segC ->
  (exists r,
      GetParms (cstr_image (request_line (path_of [segA; segB; segC])))
               (repeat None MAX_PARMS) MAX_PARMS = Some r /\
      p_count r = 3 /\
      parm_strings (buf (p_tok r)) (p_parms r) (p_count r)
      = Some [segA; segB; segC]) /\
  (exists r,
      GetParms (cstr_image (request_line (chars "/")))
               (repeat None MAX_PARMS) MAX_PARMS = Some r /\
      p_count r = 0).
Proof.
  intros HA HB HC. split.
  - destruct (GetParms_segments segA [segB; segC] (chars "HTTP/1.1" ++ [NUL])
                MAX_PARMS (repeat None MAX_PARMS))
      as [r [Hr [Hc [Hs _]]]].
    + repeat (apply Forall_cons; [assumption|]). apply Forall_nil.
    + now rewrite repeat_length.
    + exists r. repeat split.
      * rewrite <- Hr. f_equal. unfold cstr_image, request_line.
        now rewrite <- !app_assoc.
      * exact Hc.
      * exact Hs.
  - eexists. split; reflexivity.
Qed.

Lemma GetParms_three_segments_witness :
  exists r,
    GetParms (cstr_image (request_line (chars "/sensor2/temp/c")))
             (repeat None MAX_PARMS) MAX_PARMS = Some r /\
    p_count r = 3 /\
    parm_strings (buf (p_tok r)) (p_parms r) (p_count r)
    = Some [chars "sensor2"; chars "temp"; chars "c"].
Proof.
  refine (proj1 (GetParms_three_segments
                   (chars "sensor2") (chars "temp") (chars "c") _ _ _));
    (split; [discriminate|]); unfold chars; simpl;
    repeat (apply Forall_cons;
            [repeat split; discriminate|]); apply Forall_nil.
Defined.

(** C9. Whatever the request buffer holds, [GetParms] returns, and every
    entry it assigns has an index below [num_parms] (5 in [loop]); when the
    path has more than 5 segments it stores the first 5, prints the
    diagnostic, and returns 5 like any other count. *)
Theorem GetParms_bounded :
  (forall req parms num_parms,
      exists r,
        GetParms req parms num_parms = Some r /\
        Forall (fun k => k < num_parms) (p_writes r) /\
        p_count r <= num_parms) /\
  (forall segs tail,
      Forall segment segs -> MAX_PARMS < length segs ->
      exists r,
        GetParms (chars "GET " ++ path_of segs ++ " "%char :: tail)
                 (repeat None MAX_PARMS) MAX_PARMS = Some r /\
        p_count r = MAX_PARMS /\
        parm_strings (buf (p_tok r)) (p_parms r) (p_count r)
        = Some (firstn MAX_PARMS segs) /\
        p_writes r = [0; 1; 2; 3; 4] /\
        p_diag r = true).
Proof.
  split.
  - intros req parms num_parms.
    destruct (GetParms_safe req parms num_parms) as [r [Hr [Hw [Hc _]]]].
    now exists r.
  - intros segs tail Hsegs Hmore.
    destruct segs as [|s1 segs]; [simpl in Hmore; lia|].
    destruct (GetParms_segments s1 segs tail MAX_PARMS (repeat None MAX_PARMS)
                Hsegs)
      as [r [Hr [Hc [Hs [Hw [Hd _]]]]]]; [now rewrite repeat_length|].
    assert (Hcount : p_count r = MAX_PARMS) by (rewrite Hc; lia).
    exists r. repeat split; try assumption.
    + rewrite Hw, Hcount. reflexivity.
    + rewrite Hd. now apply Nat.ltb_lt.
Qed.

Lemma GetParms_bounded_witness :
  exists r,
    GetParms (chars "GET " ++ path_of [chars "a"; chars "b"; chars "c";
                                       chars "d"; chars "e"; chars "f"]
                    ++ " "%char :: chars "HTTP/1.1" ++ [NUL])
             (repeat None MAX_PARMS) MAX_PARMS = Some r /\
    p_count r = MAX_PARMS /\
    parm_strings (buf (p_tok r)) (p_parms r) (p_count r)
    = Some [chars "a"; chars "b"; chars "c"; chars "d"; chars "e"] /\
    p_writes r = [0; 1; 2; 3; 4] /\
    p_diag r = true.
Proof.
  refine (proj2 GetParms_bounded
            [chars "a"; chars "b"; chars "c"; chars "d"; chars "e"; chars "f"]
            (chars "HTTP/1.1" ++ [NUL]) _ _).
  - repeat (apply Forall_cons;
            [split; [discriminate|]; unfold chars; simpl;
             repeat (apply Forall_cons; [repeat split; discriminate|]);
             apply Forall_nil|]).
    apply Forall_nil.
  - unfold MAX_PARMS. simpl. lia.
Defined.

(** * Further properties of the sketch *)

(** ** [InStr], continued *)

(** X1. [InStr] answers [true] only for a needle that occurs in the
    haystack as a contiguous substring. *)
Theorem InStr_true_occurs (str1 str2 : list ascii) :
  InStr str1 str2 = true -> Substring str2 str1.
Proof. exact (InStr_sound str1 str2). Qed.

Lemma InStr_true_occurs_witness :
  Substring (chars "GET /s") (chars "GET /sensor1/temp HTTP/1.1").
Proof.
  apply (InStr_true_occurs (chars "GET /sensor1/temp HTTP/1.1") (chars "GET /s")).
  reflexivity.
Defined.

Lemma InStr_loop_skip (c : ascii) (needle pre x : list ascii) :
  ~ In c pre ->
  InStr_loop (c :: needle) 0 (pre ++ x) = InStr_loop (c :: needle) 0 x.
Proof.
  induction pre as [|a pre IH]; intros Hc; [reflexivity|].
  cbn [app InStr_loop]. unfold char_at. cbn [nth].
  destruct (Ascii.eqb_spec a c) as [->|_].
  - exfalso. apply Hc. now left.
  - apply IH. intros Hin. apply Hc. now right.
Qed.

(** X2. [InStr] does find a non-empty needle when its first character
    does not occur in the haystack before the occurrence. *)
Theorem InStr_finds_first_occurrence (c : ascii) (needle pre post : list ascii) :
  ~ In c pre ->
  InStr (pre ++ (c :: needle) ++ post) (c :: needle) = true.
Proof.
  intros Hc. unfold InStr, strlen. rewrite !length_app.
  destruct (Nat.ltb_spec (length pre + (length (c :: needle) + length post))
                         (length (c :: needle))); [lia|].
  rewrite InStr_loop_skip by exact Hc.
  exact (InStr_loop_match post (c :: needle) [] ltac:(discriminate)).
Qed.

Lemma InStr_finds_first_occurrence_witness :
  InStr (chars "POST " ++ chars "GET / " ++ chars "HTTP/1.1") (chars "GET / ")
  = true.
Proof.
  apply (InStr_finds_first_occurrence "G"%char (chars "ET / ") (chars "POST ")
           (chars "HTTP/1.1")).
  unfold chars. simpl. intros H.
  repeat (destruct H as [H|H]; [discriminate|]). exact H.
Defined.

(** X3. Against the empty needle [InStr] answers [false] for every
    haystack. *)
Theorem InStr_empty_needle_false (str1 : list ascii) :
  cstring str1 -> InStr str1 [] = false.
Proof. exact (InStr_empty_needle str1). Qed.

Lemma InStr_empty_needle_false_witness :
  InStr (chars "GET /report HTTP/1.1") [] = false.
Proof.
  apply (InStr_empty_needle_false (chars "GET /report HTTP/1.1")).
  apply cstring_chars_dec. reflexivity.
Defined.

(** ** Route selection, continued *)

(** X4. A request in which ["GET /"] does not occur (another method, say)
    takes none of the three branches. *)
Theorem no_GET_no_route (request : list ascii) :
  ~ Substring (chars "GET /") request ->
  select_route (HTTP_req_string request) = NoRoute.
Proof.
  intros H. unfold select_route.
  rewrite !InStr_buffer_absent; [reflexivity | | |]; intros Hs; apply H.
  - exact (Substring_inner [] (chars "GET /") (chars "report ") request Hs).
  - exact (Substring_inner [] (chars "GET /") (chars "s") request Hs).
  - exact (Substring_inner [] (chars "GET /") (chars " ") request Hs).
Qed.

Lemma no_GET_no_route_witness :
  select_route (HTTP_req_string (chars "POST /sensor1/temp " ++ bare_tail))
  = NoRoute.
Proof.
  apply (no_GET_no_route (chars "POST /sensor1/temp " ++ bare_tail)).
  apply not_Substring_dec. reflexivity.
Defined.

(** ** The request buffer, continued *)

Lemma HTTP_req_bytes_short (done : list ascii) :
  length done <= REQ_BUF_SZ - 1 ->
  HTTP_req_bytes done = done ++ repeat NUL (REQ_BUF_SZ - length done).
Proof.
  intros H. unfold HTTP_req_bytes. now rewrite firstn_all2 by exact H.
Qed.

Lemma HTTP_req_bytes_full (done x : list ascii) :
  REQ_BUF_SZ - 1 <= length done ->
  HTTP_req_bytes (done ++ x) = HTTP_req_bytes done.
Proof.
  intros H. unfold HTTP_req_bytes. rewrite firstn_app.
  replace (REQ_BUF_SZ - 1 - length done) with 0 by lia.
  cbn [firstn]. now rewrite app_nil_r.
Qed.

Lemma HTTP_req_bytes_length (request : list ascii) :
  length (HTTP_req_bytes request) = REQ_BUF_SZ.
Proof.
  unfold HTTP_req_bytes. cbv zeta. rewrite length_app, repeat_length.
  pose proof (firstn_le_length (REQ_BUF_SZ - 1) request) as H.
  revert H. generalize (length (firstn (REQ_BUF_SZ - 1) request)).
  unfold REQ_BUF_SZ. intros n H. lia.
Qed.

Lemma HTTP_req_bytes_terminated (request : list ascii) :
  load (HTTP_req_bytes request) (REQ_BUF_SZ - 1) = NUL.
Proof.
  unfold HTTP_req_bytes, load. cbv zeta.
  pose proof (firstn_le_length (REQ_BUF_SZ - 1) request) as H.
  rewrite app_nth2 by exact H. apply nth_repeat.
Qed.

(** One byte read: it is stored while there is room, and the buffer is the
    image of the bytes read so far. *)
Lemma read_request_step (c : ascii) (incoming done : list ascii) (blank : bool) :
  read_request (c :: incoming) (HTTP_req_bytes done)
               (Nat.min (length done) (REQ_BUF_SZ - 1)) blank
  = if Ascii.eqb c LF && blank
    then Some (HTTP_req_bytes (done ++ [c]), incoming)
    else read_request incoming (HTTP_req_bytes (done ++ [c]))
           (Nat.min (length (done ++ [c])) (REQ_BUF_SZ - 1))
           (if Ascii.eqb c LF then true
            else if negb (Ascii.eqb c CR) then false else blank).
Proof.
  cbn [read_request]. rewrite length_app. cbn [length].
  destruct (Nat.ltb_spec (Nat.min (length done) (REQ_BUF_SZ - 1))
                         (REQ_BUF_SZ - 1)) as [Hlt|Hge].
  - assert (Hd : length done < REQ_BUF_SZ - 1) by lia.
    replace (Nat.min (length done) (REQ_BUF_SZ - 1)) with (length done) by lia.
    replace (Nat.min (length done + 1) (REQ_BUF_SZ - 1))
      with (S (length done)) by lia.
    assert (E : store (HTTP_req_bytes done) (length done) c
                = HTTP_req_bytes (done ++ [c])).
    { rewrite !HTTP_req_bytes_short
        by (rewrite ?length_app; cbn [length]; unfold REQ_BUF_SZ in *; lia).
      rewrite length_app. cbn [length].
      replace (REQ_BUF_SZ - length done)
        with (S (REQ_BUF_SZ - (length done + 1)))
        by (unfold REQ_BUF_SZ in *; lia).
      cbn [repeat]. rewrite store_at. now rewrite <- app_assoc. }
    rewrite E. reflexivity.
  - assert (Hd : REQ_BUF_SZ - 1 <= length done) by lia.
    rewrite (HTTP_req_bytes_full done [c] Hd).
    replace (Nat.min (length done + 1) (REQ_BUF_SZ - 1))
      with (Nat.min (length done) (REQ_BUF_SZ - 1)) by lia.
    reflexivity.
Qed.

Lemma read_request_buffer (incoming : list ascii) :
  forall done blank b rest,
    read_request incoming (HTTP_req_bytes done)
                 (Nat.min (length done) (REQ_BUF_SZ - 1)) blank
    = Some (b, rest) ->
    exists consumed,
      incoming = consumed ++ rest /\ b = HTTP_req_bytes (done ++ consumed) /\
      exists before, consumed = before ++ [LF].
Proof.
  induction incoming as [|c incoming IH]; intros done blank b rest H;
    [discriminate|].
  rewrite read_request_step in H.
  destruct (Ascii.eqb_spec c LF) as [->|Hc]; cbn [andb] in H.
  - destruct blank.
    + injection H as <- <-. exists [LF]. repeat split. now exists [].
    + apply IH in H. destruct H as [consumed [-> [-> [before ->]]]].
      exists (LF :: before ++ [LF]).
      split; [reflexivity|]. split; [now rewrite <- app_assoc|].
      now exists (LF :: before).
  - apply IH in H. destruct H as [consumed [-> [-> [before ->]]]].
    exists (c :: before ++ [LF]).
    split; [reflexivity|]. split; [now rewrite <- app_assoc|].
    now exists (c :: before).
Qed.

(** X5. When the reply is sent, [HTTP_req] holds the first 29 of the bytes
    read so far, zero-padded to its 30 bytes; it is still 30 bytes long
    and its last byte is still NUL; the last byte read is a newline. *)
Theorem receive_buffer (incoming b rest : list ascii) :
  receive incoming = Some (b, rest) ->
  exists consumed,
    incoming = consumed ++ rest /\
    b = HTTP_req_bytes consumed /\
    length b = REQ_BUF_SZ /\
    load b (REQ_BUF_SZ - 1) = NUL /\
    exists before, consumed = before ++ [LF].
Proof.
  intros H.
  destruct (read_request_buffer incoming [] true b rest H)
    as [consumed [Hin [Hb Hlast]]].
  exists consumed. cbn [app] in Hb. subst b. repeat split.
  - exact Hin.
  - apply HTTP_req_bytes_length.
  - apply HTTP_req_bytes_terminated.
  - exact Hlast.
Qed.

Lemma receive_buffer_witness :
  exists consumed,
    chars "GET / " ++ bare_tail ++ chars "next" = consumed ++ chars "next" /\
    HTTP_req_bytes (chars "GET / " ++ bare_tail) = HTTP_req_bytes consumed /\
    length (HTTP_req_bytes (chars "GET / " ++ bare_tail)) = REQ_BUF_SZ /\
    load (HTTP_req_bytes (chars "GET / " ++ bare_tail)) (REQ_BUF_SZ - 1) = NUL /\
    exists before, consumed = before ++ [LF].
Proof.
  apply (receive_buffer (chars "GET / " ++ bare_tail ++ chars "next")
           (HTTP_req_bytes (chars "GET / " ++ bare_tail)) (chars "next")).
  reflexivity.
Defined.

(** The characters of a line: none of them ends the request, and the line
    stops being blank at the first one that is not a carriage return. *)
Lemma read_request_line (l x : list ascii) :
  ~ In LF l ->
  forall done blank,
    read_request (l ++ x) (HTTP_req_bytes done)
                 (Nat.min (length done) (REQ_BUF_SZ - 1)) blank
    = read_request x (HTTP_req_bytes (done ++ l))
        (Nat.min (length (done ++ l)) (REQ_BUF_SZ - 1))
        (blank && forallb (fun c => Ascii.eqb c CR) l).
Proof.
  induction l as [|c l IH]; intros Hlf done blank.
  - cbn [app forallb]. now rewrite app_nil_r, andb_true_r.
  - cbn [app]. rewrite read_request_step.
    destruct (Ascii.eqb_spec c LF) as [->|_]; [exfalso; apply Hlf; now left|].
    cbn [andb]. rewrite IH by (intros Hin; apply Hlf; now right).
    rewrite <- app_assoc. cbn [app forallb].
    destruct (Ascii.eqb c CR), blank; reflexivity.
Qed.

Lemma text_line_not_blank (l : list ascii) :
  text_line l -> forallb (fun c => Ascii.eqb c CR) l = false.
Proof.
  intros [_ [c [Hin Hc]]].
  destruct (forallb (fun c => Ascii.eqb c CR) l) eqn:E; [|reflexivity].
  rewrite forallb_forall in E. specialize (E c Hin).
  apply Ascii.eqb_eq in E. contradiction.
Qed.

Lemma read_request_lines (lines : list (list ascii)) (x : list ascii) :
  Forall text_line lines ->
  forall done,
    read_request (crlf_lines lines ++ x) (HTTP_req_bytes done)
                 (Nat.min (length done) (REQ_BUF_SZ - 1)) true
    = read_request x (HTTP_req_bytes (done ++ crlf_lines lines))
        (Nat.min (length (done ++ crlf_lines lines)) (REQ_BUF_SZ - 1)) true.
Proof.
  induction 1 as [|l lines Hl _ IH]; intros done.
  - unfold crlf_lines. cbn [map concat app]. now rewrite app_nil_r.
  - unfold crlf_lines in *. cbn [map concat]. rewrite <- !app_assoc.
    rewrite read_request_line by apply Hl.
    rewrite text_line_not_blank by exact Hl. cbn [andb app].
    rewrite !read_request_step. cbn [Ascii.eqb Bool.eqb CR LF andb negb].
    rewrite IH. rewrite <- !app_assoc. reflexivity.
Qed.

(** X6. The request ends at the first blank line: after any number of
    lines that each hold something besides carriage returns, the CR LF of
    an empty line triggers the reply, and nothing behind it is read. *)
Theorem receive_ends_at_blank_line (lines : list (list ascii))
    (rest : list ascii) :
  Forall text_line lines ->
  receive (crlf_lines lines ++ [CR; LF] ++ rest)
  = Some (HTTP_req_bytes (crlf_lines lines ++ [CR; LF]), rest).
Proof.
  intros H. unfold receive.
  change (repeat NUL REQ_BUF_SZ) with (HTTP_req_bytes []).
  change 0 with (Nat.min (length (@nil ascii)) (REQ_BUF_SZ - 1)).
  rewrite read_request_lines by exact H. cbn [app].
  rewrite !read_request_step. cbn [Ascii.eqb Bool.eqb CR LF andb negb].
  now rewrite <- app_assoc.
Qed.

Lemma receive_ends_at_blank_line_witness :
  receive (crlf_lines [chars "GET /report HTTP/1.1"; chars "Host: dht"]
           ++ [CR; LF] ++ chars "GET")
  = Some (HTTP_req_bytes
            (crlf_lines [chars "GET /report HTTP/1.1"; chars "Host: dht"]
             ++ [CR; LF]),
          chars "GET").
Proof.
  apply (receive_ends_at_blank_line
           [chars "GET /report HTTP/1.1"; chars "Host: dht"] (chars "GET")).
  repeat (apply Forall_cons;
          [split;
           [unfold chars; simpl; intros H;
            repeat (destruct H as [H|H]; [discriminate|]); exact H
           | exists "t"%char; split;
             [unfold chars; simpl; tauto | discriminate]]|]).
  apply Forall_nil.
Defined.

(** X7. Without a newline among the bytes received the request never
    ends and no reply is sent. *)
Theorem receive_needs_newline (incoming : list ascii) :
  ~ In LF incoming -> receive incoming = None.
Proof.
  intros H. unfold receive.
  change (repeat NUL REQ_BUF_SZ) with (HTTP_req_bytes []).
  change 0 with (Nat.min (length (@nil ascii)) (REQ_BUF_SZ - 1)).
  rewrite <- (app_nil_r incoming).
  now rewrite read_request_line by exact H.
Qed.

Lemma receive_needs_newline_witness :
  receive (chars "GET /sensor1/temp HTTP/1.1") = None.
Proof.
  apply (receive_needs_newline (chars "GET /sensor1/temp HTTP/1.1")).
  unfold chars. simpl. intros H.
  repeat (destruct H as [H|H]; [discriminate|]). exact H.
Defined.

(** ** [StrClear] *)

Lemma StrClear_loop_spec (n : nat) :
  forall pre str,
    n <= length str ->
    StrClear_loop n (length pre) (pre ++ str)
    = pre ++ repeat NUL n ++ skipn n str.
Proof.
  induction n as [|n IH]; intros pre str Hn; [reflexivity|].
  destruct str as [|a str]; [simpl in Hn; lia|].
  cbn [StrClear_loop repeat skipn app]. rewrite store_at.
  specialize (IH (pre ++ [NUL]) str ltac:(simpl in Hn; lia)).
  rewrite length_app, Nat.add_1_r, <- app_assoc in IH. cbn [app] in IH.
  rewrite IH. now rewrite <- app_assoc.
Qed.

Lemma char_of_int_small (char_signed : bool) (n : nat) :
  n < 128 -> Z.to_nat (char_of_int char_signed n) = n.
Proof.
  intros H. unfold char_of_int. cbv zeta.
  rewrite Z.mod_small by lia.
  destruct (Z.leb_spec 128 (Z.of_nat n)); [lia|].
  rewrite andb_false_r. apply Nat2Z.id.
Qed.

(** X8. [StrClear(str, length)] clears as many bytes as the [char] its
    second argument is converted to says: with that number [k] within the
    buffer, the first [k] bytes become 0, the other bytes and the size stay,
    and for [k > 0] the buffer then holds the empty string. [k] is [length]
    itself below 128; a [length] of 256 clears nothing, and neither does
    one of 128 to 255 where [char] is signed. *)
Theorem StrClear_zeroes (char_signed : bool) (str : list ascii) (n : nat) :
  let k := Z.to_nat (char_of_int char_signed n) in
  k <= length str ->
  StrClear char_signed str n = repeat NUL k ++ skipn k str /\
  length (StrClear char_signed str n) = length str /\
  (0 < k -> cstring_at (StrClear char_signed str n) 0 = []) /\
  (n < 128 -> k = n) /\
  (n = 256 -> k = 0) /\
  (char_signed = true -> 128 <= n < 256 -> k = 0) /\
  (char_signed = false -> n < 256 -> k = n).
Proof.
  intros k Hk.
  assert (E : StrClear char_signed str n = repeat NUL k ++ skipn k str)
    by exact (StrClear_loop_spec k [] str Hk).
  rewrite E. repeat split.
  - rewrite length_app, repeat_length, length_skipn. lia.
  - intros Hpos. destruct k; [lia|]. reflexivity.
  - intros Hn. now apply char_of_int_small.
  - intros ->. subst k. now destruct char_signed.
  - intros -> Hn. subst k. unfold char_of_int. cbv zeta.
    rewrite Z.mod_small by lia.
    destruct (Z.leb_spec 128 (Z.of_nat n)); [|lia].
    cbn [andb]. lia.
  - intros -> Hn. subst k. unfold char_of_int. cbv zeta.
    rewrite Z.mod_small by lia. cbn [andb]. apply Nat2Z.id.
Qed.

Lemma StrClear_zeroes_witness :
  StrClear true (chars "GET /") 3 = repeat NUL 3 ++ skipn 3 (chars "GET /") /\
  length (StrClear true (chars "GET /") 3) = length (chars "GET /").
Proof.
  pose proof (StrClear_zeroes true (chars "GET /") 3) as H.
  cbv zeta in H.
  destruct H as [H1 [H2 _]]; [vm_compute; lia|].
  split; [exact H1 | exact H2].
Defined.

(** X9. The [StrClear(HTTP_req, REQ_BUF_SZ)] that ends a reply puts the
    request buffer back to the zero-filled state a connection starts
    with, whatever was received and whatever [strtok] wrote into it. *)
Theorem StrClear_resets_buffer (char_signed : bool) (HTTP_req : list ascii) :
  length HTTP_req = REQ_BUF_SZ ->
  StrClear char_signed HTTP_req REQ_BUF_SZ = repeat NUL REQ_BUF_SZ.
Proof.
  intros H.
  pose proof (StrClear_loop_spec REQ_BUF_SZ [] HTTP_req ltac:(lia)) as E.
  cbn [app length] in E. unfold StrClear.
  rewrite char_of_int_small by (unfold REQ_BUF_SZ; lia). rewrite E.
  rewrite skipn_all2 by lia. apply app_nil_r.
Qed.

Lemma StrClear_resets_buffer_witness :
  StrClear false (HTTP_req_bytes (chars "GET /report HTTP/1.1")) REQ_BUF_SZ
  = repeat NUL REQ_BUF_SZ.
Proof.
  apply (StrClear_resets_buffer false
           (HTTP_req_bytes (chars "GET /report HTTP/1.1"))).
  reflexivity.
Defined.

(** ** [GetParms] on an arbitrary buffer *)

Lemma array_set_length (a : list (option ptr)) (i : nat) (w : ptr) :
  length (array_set a i w) = length a.
Proof.
  revert i. induction a as [|x a IH]; intros [|i]; simpl; auto.
Qed.

Lemma array_set_same (a : list (option ptr)) (i : nat) (w : ptr) :
  i < length a -> nth_error (array_set a i w) i = Some (Some w).
Proof.
  revert i. induction a as [|x a IH]; intros [|i] H; simpl in *;
    try lia; [reflexivity | apply IH; lia].
Qed.

Lemma array_set_other (a : list (option ptr)) (i k : nat) (w : ptr) :
  k <> i -> nth_error (array_set a i w) k = nth_error a k.
Proof.
  revert i k. induction a as [|x a IH]; intros [|i] [|k] H; simpl;
    try reflexivity; try congruence.
  apply IH. congruence.
Qed.

(** The loop assigns the entries [i], [i + 1], ... one after the other and
    nothing else. *)
Lemma GetParms_loop_array (num_parms fuel : nat) :
  forall i word tk parms writes r,
    GetParms_loop fuel num_parms i word tk parms writes = Some r ->
    i <= p_count r /\
    p_writes r = writes ++ seq i (p_count r - i) /\
    (forall k, k < i \/ p_count r <= k ->
               nth_error (p_parms r) k = nth_error parms k) /\
    (forall k, i <= k < p_count r -> k < length parms ->
               exists w, nth_error (p_parms r) k = Some (Some w)).
Proof.
  induction fuel as [|fuel IH]; intros i word tk parms writes r H;
    [discriminate|].
  cbn [GetParms_loop] in H. destruct word as [w|].
  - destruct (Nat.ltb_spec i num_parms) as [Hlt|Hge].
    + destruct (strtok tk None (chars "/")) as [tk' word'].
      apply IH in H. destruct H as [Hi [Hw [Hkeep Hset]]].
      split; [lia|]. split; [|split].
      * rewrite Hw, <- app_assoc. f_equal.
        replace (p_count r - i) with (S (p_count r - S i)) by lia.
        reflexivity.
      * intros k Hk. rewrite Hkeep by lia. apply array_set_other. lia.
      * intros k Hk Hlen. destruct (Nat.eq_dec k i) as [->|Hne].
        -- exists w. rewrite Hkeep by lia. now apply array_set_same.
        -- apply Hset; [lia|]. now rewrite array_set_length.
    + injection H as <-. cbn. rewrite Nat.sub_diag, app_nil_r.
      repeat split; auto. intros k Hk. lia.
  - injection H as <-. cbn. rewrite Nat.sub_diag, app_nil_r.
    repeat split; auto. intros k Hk. lia.
Qed.

(** X10. Whatever the buffer holds, [GetParms] returns a count [n] of at
    most [num_parms]; it has assigned the entries 0, 1, ..., [n - 1] of the
    array, in that order, each with a pointer, and has left every other
    entry, and the size of the array, as it found them. *)
Theorem GetParms_array (req : list ascii) (parms : list (option ptr))
    (num_parms : nat) :
  exists r,
    GetParms req parms num_parms = Some r /\
    p_count r <= num_parms /\
    p_writes r = seq 0 (p_count r) /\
    length (p_parms r) = length parms /\
    (forall k, p_count r <= k -> nth_error (p_parms r) k = nth_error parms k) /\
    (forall k, k < p_count r -> k < length parms ->
               exists w, nth_error (p_parms r) k = Some (Some w)).
Proof.
  destruct (GetParms_safe req parms num_parms) as [r [Hr [_ [Hc Hl]]]].
  exists r. split; [exact Hr|]. split; [exact Hc|].
  unfold GetParms in Hr.
  destruct (strtok (mkTok req None) (Some 0) (chars " ")) as [t1 w1].
  destruct (strtok t1 None (chars " ")) as [t2 w2].
  destruct (strtok t2 w2 (chars "/")) as [t3 w3].
  apply GetParms_loop_array in Hr. destruct Hr as [_ [Hw [Hkeep Hset]]].
  rewrite Nat.sub_0_r in Hw. repeat split; try assumption.
  - intros k Hk. apply Hkeep. now right.
  - intros k Hk Hlen. apply Hset; [lia | exact Hlen].
Qed.

Lemma store_length (m : list ascii) (p : ptr) (c : ascii) :
  length (store m p c) = length m.
Proof.
  revert p. induction m as [|a m IH]; intros [|p]; simpl; auto.
Qed.

Lemma load_store (m : list ascii) (p q : ptr) (c : ascii) :
  load (store m p c) q = load m q \/ (q = p /\ load (store m p c) q = c).
Proof.
  unfold load. revert p q. induction m as [|a m IH]; intros p q.
  - left. now destruct p.
  - destruct p as [|p], q as [|q]; simpl; auto.
    destruct (IH p q) as [H|[-> H]]; auto.
Qed.

Lemma load_skipn (m : list ascii) (b k : nat) :
  nth k (skipn b m) NUL = load m (b + k).
Proof.
  unfold load. revert m. induction b as [|b IH]; intros m; [reflexivity|].
  destruct m as [|a m]; [now destruct k | apply IH].
Qed.

(** Where [span] stops: on the terminator or on a character it does not
    keep. *)
Lemma span_stops (keep : ascii -> bool) (l : list ascii) :
  nth (span keep l) l NUL = NUL \/ keep (nth (span keep l) l NUL) = false.
Proof.
  induction l as [|c l IH]; [now left|].
  simpl. destruct (Ascii.eqb_spec c NUL) as [->|Hc]; [now left|].
  destruct (keep c) eqn:E; simpl; [exact IH | now right].
Qed.

Lemma is_delim_space (c : ascii) :
  is_delim (chars " ") c = true -> c = " "%char.
Proof.
  unfold is_delim, chars. simpl. rewrite orb_false_r. apply Ascii.eqb_eq.
Qed.

Lemma is_delim_slash (c : ascii) :
  is_delim (chars "/") c = true -> c = "/"%char.
Proof.
  unfold is_delim, chars. simpl. rewrite orb_false_r. apply Ascii.eqb_eq.
Qed.

Lemma only_delimiters_cut_refl (m : list ascii) : only_delimiters_cut m m.
Proof. split; [reflexivity | now left]. Qed.

Lemma only_delimiters_cut_trans (m1 m2 m3 : list ascii) :
  only_delimiters_cut m1 m2 -> only_delimiters_cut m2 m3 ->
  only_delimiters_cut m1 m3.
Proof.
  intros [L12 H12] [L23 H23]. split; [congruence|]. intros p.
  destruct (H23 p) as [E|[E D]].
  - rewrite E. apply H12.
  - destruct (H12 p) as [E'|[E' _]].
    + right. rewrite <- E'. now split.
    + exfalso. rewrite E' in D. destruct D; discriminate.
Qed.

Lemma strtok_cut (delim : list ascii) (st st' : tok_state)
    (str w : option ptr) :
  (forall c, is_delim delim c = true -> c = " "%char \/ c = "/"%char) ->
  strtok st str delim = (st', w) ->
  only_delimiters_cut (buf st) (buf st').
Proof.
  intros Hdel. unfold strtok.
  destruct (match str with Some p => Some p | None => saveptr st end) as [s|];
    [| intros H; injection H as <- _; apply only_delimiters_cut_refl].
  unfold strtok_from.
  set (b := s + strspn (buf st) s delim).
  destruct (Ascii.eqb (load (buf st) b) NUL);
    [intros H; injection H as <- _; apply only_delimiters_cut_refl|].
  set (e := b + strcspn (buf st) b delim).
  destruct (Ascii.eqb_spec (load (buf st) e) NUL) as [_|Hne];
    intros H; injection H as <- _; cbn [buf];
    [apply only_delimiters_cut_refl|].
  split; [apply store_length|]. intros p.
  destruct (load_store (buf st) e p NUL) as [E|[-> E]]; [now left|].
  right. split; [exact E|]. apply Hdel.
  unfold e, strcspn in *. rewrite <- load_skipn in *.
  destruct (span_stops (fun c => negb (is_delim delim c)) (skipn b (buf st)))
    as [H0|H0]; [contradiction|].
  now apply negb_false_iff in H0.
Qed.

Lemma GetParms_loop_cut (num_parms fuel : nat) :
  forall i word tk parms writes r,
    GetParms_loop fuel num_parms i word tk parms writes = Some r ->
    only_delimiters_cut (buf tk) (buf (p_tok r)).
Proof.
  induction fuel as [|fuel IH]; intros i word tk parms writes r H;
    [discriminate|].
  cbn [GetParms_loop] in H. destruct word as [w|].
  - destruct (i <? num_parms).
    + destruct (strtok tk None (chars "/")) as [tk' word'] eqn:E.
      apply IH in H. apply strtok_cut in E;
        [| intros c Hc; right; now apply is_delim_slash].
      exact (only_delimiters_cut_trans _ _ _ E H).
    + injection H as <-. apply only_delimiters_cut_refl.
  - injection H as <-. apply only_delimiters_cut_refl.
Qed.

(** X11. Whatever the buffer holds, [GetParms] leaves its size alone and
    changes a byte in one way only: a space or a slash becomes NUL. *)
Theorem GetParms_cuts_delimiters_only (req : list ascii)
    (parms : list (option ptr)) (num_parms : nat) :
  exists r,
    GetParms req parms num_parms = Some r /\
    length (buf (p_tok r)) = length req /\
    forall p, load (buf (p_tok r)) p = load req p \/
              (load (buf (p_tok r)) p = NUL /\
               (load req p = " "%char \/ load req p = "/"%char)).
Proof.
  destruct (GetParms_safe req parms num_parms) as [r [Hr _]].
  exists r. split; [exact Hr|].
  unfold GetParms in Hr.
  destruct (strtok (mkTok req None) (Some 0) (chars " ")) as [t1 w1] eqn:E1.
  destruct (strtok t1 None (chars " ")) as [t2 w2] eqn:E2.
  destruct (strtok t2 w2 (chars "/")) as [t3 w3] eqn:E3.
  apply GetParms_loop_cut in Hr.
  apply strtok_cut in E1; [| intros c Hc; left; now apply is_delim_space].
  apply strtok_cut in E2; [| intros c Hc; left; now apply is_delim_space].
  apply strtok_cut in E3; [| intros c Hc; right; now apply is_delim_slash].
  cbn [buf] in E1.
  exact (only_delimiters_cut_trans _ _ _ E1
           (only_delimiters_cut_trans _ _ _ E2
              (only_delimiters_cut_trans _ _ _ E3 Hr))).
Qed.

(** ** [GetParms] on paths with repeated and trailing slashes *)

Ltac norm_app := repeat (rewrite <- app_assoc || rewrite <- app_comm_cons).

Lemma slashes_delims (k : nat) : delims (chars "/") (slashes k).
Proof.
  unfold delims, run, slashes. induction k as [|k IH]; simpl;
    [constructor|].
  constructor; [split; [discriminate | reflexivity] | exact IH].
Qed.

Lemma path_with_runs_behind (segs : list (nat * list ascii)) (t : nat) :
  path_with_runs segs t
  = match behind segs t with Some x => "/"%char :: x | None => [] end.
Proof.
  destruct segs as [|[k s] more]; [destruct t; reflexivity | reflexivity].
Qed.

Lemma path_with_runs_token (segs : list (nat * list ascii)) (t : nat) :
  Forall segment (map snd segs) -> path_with_runs segs t <> [] ->
  token (chars " ") (path_with_runs segs t).
Proof.
  intros H Hne. split; [exact Hne|]. clear Hne.
  assert (Hsl : forall k, run (fun c => negb (is_delim (chars " ") c))
                              (slashes k)).
  { induction k as [|k IHk]; simpl; constructor;
      [split; [discriminate | reflexivity] | exact IHk]. }
  unfold run in *. induction segs as [|[k s] more IH]; [apply Hsl|].
  cbn [map snd] in H. inversion H as [|? ? [_ Hs] Hmore]; subst.
  cbn [path_with_runs]. apply Forall_app. split; [apply Hsl|].
  apply Forall_app. split; [|now apply IH].
  rewrite Forall_forall in *. intros c Hc.
  destruct (Hs c Hc) as [_ [Hsp Hnul]]. split; [exact Hnul|].
  unfold is_delim, chars. simpl.
  destruct (Ascii.eqb_spec c " "%char); [contradiction | reflexivity].
Qed.

(** Delimiters up to the terminator: no token. *)
Lemma strtok_from_none (delim pre ds rest : list ascii) :
  delims delim ds ->
  strtok_from (pre ++ ds ++ NUL :: rest) (length pre) delim
  = (mkTok (pre ++ ds ++ NUL :: rest) (Some (length (pre ++ ds))), None).
Proof.
  intros Hds. unfold strtok_from, strspn.
  rewrite skipn_at, span_run by exact Hds.
  rewrite span_stop by (now left). rewrite Nat.add_0_r, <- length_app.
  now rewrite app_assoc, load_at.
Qed.

Lemma firstn_cons_pos {A} (k : nat) (x : A) (l : list A) :
  k <> 0 -> firstn k (x :: l) = x :: firstn (k - 1) l.
Proof.
  intros Hk. destruct k as [|k]; [congruence|]. cbn [firstn].
  replace (S k - 1) with k by lia. reflexivity.
Qed.

(** The loop on a buffer in which [strtok] has just delimited the segment
    [cur] at [length pre], with [remaining] and [t] trailing slashes still
    to come. *)
Lemma GetParms_loop_runs (tail : list ascii) (t num_parms : nat)
    (remaining : list (nat * list ascii)) :
  forall cur pre fuel i done slots writes,
    segment cur -> Forall segment (map snd remaining) ->
    length done = i -> num_parms - i <= length slots -> num_parms - i < fuel ->
    exists ws slots' m' sv',
      GetParms_loop fuel num_parms i (Some (length pre))
        (mkTok (pre ++ cur ++ NUL ::
                  match behind remaining t with
                  | Some x => x ++ NUL :: tail
                  | None => tail
                  end)
               (Some match behind remaining t with
                     | Some _ => S (length (pre ++ cur))
                     | None => length (pre ++ cur)
                     end))
        (done ++ slots) writes
      = Some (mkParsed (i + length ws) (done ++ map Some ws ++ slots')
                (mkTok (pre ++ cur ++ NUL :: m') sv')
                (writes ++ seq i (length ws))
                (num_parms - i <? S (length remaining))) /\
      map (cstring_at (pre ++ cur ++ NUL :: m')) ws
      = firstn (num_parms - i) (cur :: map snd remaining) /\
      length (map Some ws ++ slots') = length slots.
Proof.
  induction remaining as [|[k s] more IH];
    intros cur pre fuel i done slots writes Hcur Hrem Hdone Hslots Hfuel;
    (destruct fuel as [|fuel]; [lia|]); cbn [GetParms_loop];
    (destruct (Nat.ltb_spec i num_parms) as [Hlt|Hge];
     [| exists [], slots; do 2 eexists; simpl;
        replace (num_parms - i) with 0 by lia;
        rewrite Nat.add_0_r, app_nil_r; repeat split ]).
  - (* no segment is left *)
    destruct slots as [|x slots]; [simpl in Hslots; lia|].
    rewrite <- Hdone, array_set_at.
    assert (Hone : forall m',
               map (cstring_at (pre ++ cur ++ NUL :: m')) [length pre]
               = firstn (num_parms - length done) [cur]).
    { intros m'. cbn [map].
      rewrite cstring_at_stop by now apply segment_cstring.
      rewrite firstn_cons_pos by lia. now rewrite firstn_nil. }
    assert (Hd : (num_parms - length done <? 1) = false)
      by (apply Nat.ltb_ge; lia).
    unfold strtok. cbn [saveptr buf].
    destruct fuel as [|fuel]; [lia|].
    destruct t as [|t']; cbn [behind].
    + rewrite (app_assoc pre cur), strtok_from_end. cbn [GetParms_loop].
      exists [length pre], slots, tail. eexists.
      split; [|split; [apply Hone | reflexivity]].
      apply parsed_eq; cbn [length map app seq];
        [lia | reflexivity | now rewrite <- app_assoc | reflexivity |].
      cbn [length]. now rewrite Hd.
    + replace (pre ++ cur ++ NUL :: slashes t' ++ NUL :: tail)
        with ((pre ++ cur ++ [NUL]) ++ slashes t' ++ NUL :: tail)
        by (norm_app; reflexivity).
      replace (S (length (pre ++ cur))) with (length (pre ++ cur ++ [NUL]))
        by (rewrite !length_app; simpl; lia).
      rewrite strtok_from_none by apply slashes_delims.
      cbn [GetParms_loop].
      exists [length pre], slots, (slashes t' ++ NUL :: tail). eexists.
      split; [|split; [apply Hone | reflexivity]].
      apply parsed_eq; cbn [length map app seq];
        [lia | reflexivity | norm_app; reflexivity | reflexivity |].
      cbn [length]. now rewrite Hd.
  - (* the segment [s] comes next *)
    destruct slots as [|x slots]; [simpl in Hslots; lia|].
    rewrite <- Hdone, array_set_at.
    cbn [map snd] in Hrem. inversion Hrem as [|? ? Hs Hmore]; subst.
    cbn [behind]. unfold strtok. cbn [saveptr buf].
    pose (pre' := pre ++ cur ++ [NUL]).
    replace (S (length (pre ++ cur))) with (length pre')
      by (unfold pre'; rewrite !length_app; simpl; lia).
    rewrite (path_with_runs_behind more t).
    specialize (IH s (pre' ++ slashes k) fuel (S (length done))
                  (done ++ [Some (length pre)]) slots
                  (writes ++ [length done]) Hs Hmore).
    destruct IH as [ws [slots' [m' [sv' [Hloop [Hstr Hlen]]]]]];
      [rewrite length_app; simpl; lia | simpl in Hslots; lia | lia |].
    replace ((done ++ [Some (length pre)]) ++ slots)
      with (done ++ Some (length pre) :: slots) in Hloop
      by (now rewrite <- app_assoc).
    assert (Hgoal :
      GetParms_loop fuel num_parms (S (length done))
        (Some (length (pre' ++ slashes k)))
        (mkTok ((pre' ++ slashes k) ++ s ++ NUL ::
                  match behind more t with
                  | Some x0 => x0 ++ NUL :: tail
                  | None => tail
                  end)
           (Some match behind more t with
                 | Some _ => S (length ((pre' ++ slashes k) ++ s))
                 | None => length ((pre' ++ slashes k) ++ s)
                 end))
        (done ++ Some (length pre) :: slots) (writes ++ [length done])
      = Some (mkParsed (length done + length (length pre :: ws))
                (done ++ map Some (length pre :: ws) ++ slots')
                (mkTok (pre ++ cur ++ NUL :: slashes k ++ s ++ NUL :: m') sv')
                (writes ++ seq (length done) (length (length pre :: ws)))
                (num_parms - length done <? S (length ((k, s) :: more))))).
    { etransitivity; [exact Hloop|]. apply parsed_eq.
      - cbn [length]. unfold ptr. lia.
      - now rewrite <- app_assoc.
      - unfold pre'. f_equal. norm_app. reflexivity.
      - now rewrite <- app_assoc.
      - cbn [length].
        destruct (Nat.ltb_spec (num_parms - S (length done))
                               (S (length more))),
                 (Nat.ltb_spec (num_parms - length done)
                               (S (S (length more))));
          reflexivity || lia. }
    exists (length pre :: ws), slots', (slashes k ++ s ++ NUL :: m'), sv'.
    split; [|split].
    + destruct (behind more t) as [x0|] eqn:EB.
      * replace (pre ++ cur ++ NUL ::
                     (slashes k ++ s ++ "/"%char :: x0) ++ NUL :: tail)
          with (pre' ++ slashes k ++ s ++ "/"%char :: (x0 ++ NUL :: tail))
          by (unfold pre'; norm_app; reflexivity).
        rewrite strtok_from_token;
          [| apply slashes_delims | now apply segment_token
           | discriminate | reflexivity].
        replace (pre' ++ slashes k ++ s ++ NUL :: x0 ++ NUL :: tail)
          with ((pre' ++ slashes k) ++ s ++ NUL :: x0 ++ NUL :: tail)
          by (now rewrite <- app_assoc).
        exact Hgoal.
      * replace (pre ++ cur ++ NUL :: (slashes k ++ s ++ []) ++ NUL :: tail)
          with (pre' ++ slashes k ++ s ++ NUL :: tail)
          by (unfold pre'; rewrite app_nil_r; norm_app; reflexivity).
        rewrite strtok_from_last;
          [| apply slashes_delims | now apply segment_token].
        replace (pre' ++ slashes k ++ s ++ NUL :: tail)
          with ((pre' ++ slashes k) ++ s ++ NUL :: tail)
          by (now rewrite <- app_assoc).
        exact Hgoal.
    + cbn [map snd]. rewrite cstring_at_stop by now apply segment_cstring.
      rewrite firstn_cons_pos by lia.
      replace (num_parms - length done - 1)
        with (num_parms - S (length done)) by lia.
      f_equal. rewrite <- Hstr. unfold pre'. f_equal. f_equal.
      norm_app. reflexivity.
    + cbn [map app length] in Hlen |- *. now rewrite Hlen.
Qed.

(** X12. Empty segments do not count: on ["GET <path>"] followed by a
    space or by the end of the buffer, where the path has one slash or
    more before each segment and any number of slashes at its end,
    [GetParms] returns the number of segments (at most [num_parms]), leaves
    the first [num_parms] segments in the array in order, and prints the
    diagnostic exactly when there are more than [num_parms]. *)
Theorem GetParms_skips_empty_segments (segs : list (nat * list ascii))
    (t : nat) (sep : ascii) (tail : list ascii) (num_parms : nat)
    (parms : list (option ptr)) :
  Forall segment (map snd segs) -> path_with_runs segs t <> [] ->
  sep = " "%char \/ sep = NUL -> num_parms <= length parms ->
  exists r,
    GetParms (chars "GET " ++ path_with_runs segs t ++ sep :: tail)
             parms num_parms = Some r /\
    p_count r = Nat.min num_parms (length segs) /\
    parm_strings (buf (p_tok r)) (p_parms r) (p_count r)
    = Some (firstn num_parms (map snd segs)) /\
    p_diag r = (num_parms <? length segs).
Proof.
  intros Hsegs Hne Hsep Hlen.
  pose proof (path_with_runs_token segs t Hsegs Hne) as Hpath.
  set (P := chars "GET" ++ [NUL]).
  set (path := path_with_runs segs t) in *.
  assert (Hget : token (chars " ") (chars "GET")).
  { split; [discriminate|]. unfold run, chars. simpl.
    repeat (apply Forall_cons; [split; [discriminate | reflexivity]|]).
    apply Forall_nil. }
  assert (E1 : strtok (mkTok (chars "GET " ++ path ++ sep :: tail) None)
                      (Some 0) (chars " ")
               = (mkTok (P ++ path ++ sep :: tail) (Some (length P)),
                  Some 0)).
  { exact (strtok_from_token (chars " ") [] [] (chars "GET") " "%char
             (path ++ sep :: tail) (Forall_nil _) Hget
             ltac:(discriminate) eq_refl). }
  assert (E2 : exists sv,
             strtok (mkTok (P ++ path ++ sep :: tail) (Some (length P)))
                    None (chars " ")
             = (mkTok (P ++ path ++ NUL :: tail) sv, Some (length P))).
  { destruct Hsep as [-> | ->].
    - eexists.
      exact (strtok_from_token (chars " ") P [] path " "%char tail
               (Forall_nil _) Hpath ltac:(discriminate) eq_refl).
    - eexists.
      exact (strtok_from_last (chars " ") P [] path tail
               (Forall_nil _) Hpath). }
  destruct E2 as [sv E2].
  unfold GetParms. rewrite E1. cbv beta iota. rewrite E2. cbv beta iota.
  subst path. destruct segs as [|[k s] more].
  - cbn [path_with_runs]. unfold strtok at 1. cbn [buf saveptr].
    rewrite strtok_from_none by apply slashes_delims.
    eexists. split; [reflexivity|]. cbn.
    rewrite Nat.min_0_r, firstn_nil. repeat split.
  - cbn [map snd] in Hsegs. inversion Hsegs as [|? ? Hs Hmore]; subst.
    destruct (GetParms_loop_runs tail t num_parms more s (P ++ slashes (S k))
                (S num_parms) 0 [] parms [] Hs Hmore eq_refl
                ltac:(lia) ltac:(lia))
      as [ws [slots' [m' [sv' [Hloop [Hstr Hl]]]]]].
    assert (Hws : length ws = Nat.min num_parms (length ((k, s) :: more))).
    { rewrite <- (length_map (cstring_at ((P ++ slashes (S k)) ++ s ++ NUL :: m'))).
      rewrite Hstr, length_firstn, Nat.sub_0_r.
      cbn [length]. now rewrite length_map. }
    eexists. split.
    + cbn [path_with_runs]. rewrite (path_with_runs_behind more t).
      unfold strtok at 1. cbn [buf saveptr].
      destruct (behind more t) as [x0|].
      * replace (P ++ (slashes (S k) ++ s ++ "/"%char :: x0) ++ NUL :: tail)
          with (P ++ slashes (S k) ++ s ++ "/"%char :: (x0 ++ NUL :: tail))
          by (norm_app; reflexivity).
        rewrite strtok_from_token;
          [| apply slashes_delims | now apply segment_token
           | discriminate | reflexivity].
        exact Hloop.
      * replace (P ++ (slashes (S k) ++ s ++ []) ++ NUL :: tail)
          with (P ++ slashes (S k) ++ s ++ NUL :: tail)
          by (rewrite app_nil_r; norm_app; reflexivity).
        rewrite strtok_from_last;
          [| apply slashes_delims | now apply segment_token].
        exact Hloop.
    + cbn [p_count p_parms p_tok p_writes p_diag buf app Nat.add].
      repeat split.
      * exact Hws.
      * rewrite parm_strings_assigned, Hstr. now rewrite Nat.sub_0_r.
      * now rewrite Nat.sub_0_r.
Qed.

Lemma GetParms_skips_empty_segments_witness :
  exists r,
    GetParms (chars "GET " ++ chars "//sensor1///temp/" ++ NUL :: [])
             (repeat None MAX_PARMS) MAX_PARMS = Some r /\
    p_count r = Nat.min MAX_PARMS 2 /\
    parm_strings (buf (p_tok r)) (p_parms r) (p_count r)
    = Some (firstn MAX_PARMS [chars "sensor1"; chars "temp"]) /\
    p_diag r = (MAX_PARMS <? 2).
Proof.
  refine (GetParms_skips_empty_segments
            [(1, chars "sensor1"); (2, chars "temp")] 1 NUL []
            MAX_PARMS (repeat None MAX_PARMS) _ _ _ _).
  - repeat (apply Forall_cons;
            [split; [discriminate|]; unfold chars; simpl;
             repeat (apply Forall_cons; [repeat split; discriminate|]);
             apply Forall_nil|]).
    apply Forall_nil.
  - discriminate.
  - now right.
  - reflexivity.
Defined.

(** X13. A buffer with no space before its terminator has no path: the
    count is 0, nothing is assigned and the buffer is left as it was,
    slashes included. *)
Theorem GetParms_without_path (word rest : list ascii)
    (parms : list (option ptr)) (num_parms : nat) :
  Forall (fun c => c <> " "%char /\ c <> NUL) word ->
  exists r,
    GetParms (word ++ NUL :: rest) parms num_parms = Some r /\
    p_count r = 0 /\ p_parms r = parms /\
    buf (p_tok r) = word ++ NUL :: rest /\ p_diag r = false.
Proof.
  intros Hword.
  assert (E1 : exists w1,
             strtok (mkTok (word ++ NUL :: rest) None) (Some 0) (chars " ")
             = (mkTok (word ++ NUL :: rest) (Some (length word)), w1)).
  { destruct word as [|c word].
    - eexists. exact (strtok_from_end (chars " ") [] rest).
    - assert (Htok : token (chars " ") (c :: word)).
      { split; [discriminate|]. unfold run.
        rewrite Forall_forall in *. intros a Ha.
        destruct (Hword a Ha) as [Hsp Hnul]. split; [exact Hnul|].
        unfold is_delim, chars. simpl.
        destruct (Ascii.eqb_spec a " "%char); [contradiction | reflexivity]. }
      eexists.
      exact (strtok_from_last (chars " ") [] [] (c :: word) rest
               (Forall_nil _) Htok). }
  destruct E1 as [w1 E1].
  assert (E2 : forall delim,
             strtok (mkTok (word ++ NUL :: rest) (Some (length word)))
                    None delim
             = (mkTok (word ++ NUL :: rest) (Some (length word)), None)).
  { intros delim. exact (strtok_from_end delim word rest). }
  unfold GetParms. rewrite E1. cbv beta iota.
  rewrite E2. cbv beta iota. rewrite E2. cbv beta iota.
  eexists. split; [reflexivity|]. repeat split.
Qed.

Lemma GetParms_without_path_witness :
  exists r,
    GetParms (chars "GET/sensor1/temp" ++ NUL :: []) (repeat None MAX_PARMS)
             MAX_PARMS = Some r /\
    p_count r = 0 /\ p_parms r = repeat None MAX_PARMS /\
    buf (p_tok r) = chars "GET/sensor1/temp" ++ NUL :: [] /\
    p_diag r = false.
Proof.
  apply (GetParms_without_path (chars "GET/sensor1/temp") []
           (repeat None MAX_PARMS) MAX_PARMS).
  unfold chars. simpl.
  repeat (apply Forall_cons; [split; discriminate|]). apply Forall_nil.
Defined.

(** ** [strcmp] and the literals of [HandleParms] *)

Lemma code_inj (c1 c2 : ascii) : code c1 = code c2 -> c1 = c2.
Proof.
  unfold code. intros H. apply N2Z.inj in H.
  rewrite <- (ascii_N_embedding c1), <- (ascii_N_embedding c2).
  now rewrite H.
Qed.

Lemma strcmp_zero (s t : list ascii) :
  cstring s -> cstring t -> strcmp s t = 0%Z -> s = t.
Proof.
  unfold cstring. revert t. induction s as [|c1 s IH]; intros [|c2 t] Hs Ht H;
    simpl in H.
  - reflexivity.
  - exfalso. apply Ht. left. symmetry. apply code_inj.
    change (code NUL) with 0%Z. lia.
  - exfalso. apply Hs. left. symmetry. apply code_inj.
    change (code NUL) with 0%Z. lia.
  - destruct (Ascii.eqb_spec c1 c2) as [->|Hne].
    + f_equal. apply IH; [| | exact H]; intros Hin;
        [apply Hs | apply Ht]; now right.
    + exfalso. apply Hne. apply code_inj. lia.
Qed.

Lemma strcmp_refl (s : list ascii) : strcmp s s = 0%Z.
Proof.
  induction s as [|c s IH]; simpl; [reflexivity|].
  now rewrite Ascii.eqb_refl.
Qed.

Lemma streq_true (s : list ascii) (lit : string) :
  cstring s -> cstring (chars lit) -> streq s lit = true -> s = chars lit.
Proof.
  unfold streq. intros Hs Hl H. apply Z.eqb_eq in H.
  now apply strcmp_zero.
Qed.

Lemma sensor_name_cases (k : nat) :
  k < NUM_SENSORS ->
  k = 0 \/ k = 1 \/ k = 2 \/ k = 3 \/ k = 4 \/ k = 5.
Proof. unfold NUM_SENSORS. lia. Qed.

Lemma sensor_step_name (k err : nat) :
  k < NUM_SENSORS -> sensor_step (sensor_name k) err = (err, Some k).
Proof.
  intros Hk.
  destruct (sensor_name_cases k Hk) as [->|[->|[->|[->|[->| ->]]]]];
    reflexivity.
Qed.

Lemma sensor_name_segment (k : nat) :
  k < NUM_SENSORS -> segment (sensor_name k) /\ length (sensor_name k) = 7.
Proof.
  intros Hk.
  destruct (sensor_name_cases k Hk) as [->|[->|[->|[->|[->| ->]]]]];
    (split; [split; [discriminate|] | reflexivity]);
    unfold sensor_name, chars, itoa; simpl;
    repeat (apply Forall_cons; [repeat split; discriminate|]);
    apply Forall_nil.
Qed.

(** A valid request on sensor [k]: what each operation and option
    returns. *)
Lemma HandleParms_valid (k : nat) (sensors : list DHT) (d : DHT) :
  k < NUM_SENSORS -> nth_error sensors k = Some d ->
  HandleParms [sensor_name k; chars "temp"] 2 sensors
  = Some (readTemperature d true) /\
  HandleParms [sensor_name k; chars "temp"; chars "f"] 3 sensors
  = Some (readTemperature d true) /\
  HandleParms [sensor_name k; chars "temp"; chars "c"] 3 sensors
  = Some (readTemperature d false) /\
  HandleParms [sensor_name k; chars "humidity"] 2 sensors
  = Some (readHumidity d) /\
  HandleParms [sensor_name k; chars "humidity"; chars "f"] 3 sensors
  = Some (readHumidity d) /\
  HandleParms [sensor_name k; chars "humidity"; chars "c"] 3 sensors
  = Some (readHumidity d).
Proof.
  intros Hk Hd. unfold HandleParms, HandleParms_run.
  repeat split; cbn -[sensor_name sensor_step];
    rewrite sensor_step_name by exact Hk; cbn; rewrite Hd; reflexivity.
Qed.

(** X14. For a known sensor [k], [HandleParms] returns the reading of
    that very sensor: ["temp"] alone or with ["f"] gives the Fahrenheit
    read, with ["c"] the Celsius read, and ["humidity"] gives the humidity
    read whichever valid option follows. *)
Theorem HandleParms_returns_reading (k : nat) (sensors : list DHT) (d : DHT) :
  k < NUM_SENSORS -> nth_error sensors k = Some d ->
  HandleParms [sensor_name k; chars "temp"] 2 sensors
  = Some (readTemperature d true) /\
  HandleParms [sensor_name k; chars "temp"; chars "f"] 3 sensors
  = Some (readTemperature d true) /\
  HandleParms [sensor_name k; chars "temp"; chars "c"] 3 sensors
  = Some (readTemperature d false) /\
  HandleParms [sensor_name k; chars "humidity"] 2 sensors
  = Some (readHumidity d) /\
  HandleParms [sensor_name k; chars "humidity"; chars "f"] 3 sensors
  = Some (readHumidity d) /\
  HandleParms [sensor_name k; chars "humidity"; chars "c"] 3 sensors
  = Some (readHumidity d).
Proof. exact (HandleParms_valid k sensors d). Qed.

Lemma HandleParms_returns_reading_witness :
  HandleParms [sensor_name 3; chars "humidity"; chars "c"] 3 bench
  = Some f45_5.
Proof.
  refine (proj2 (proj2 (proj2 (proj2 (proj2
            (HandleParms_returns_reading 3 bench
               (bench_sensor float_zero float_zero f45_5) _ _)))))).
  - unfold NUM_SENSORS. lia.
  - reflexivity.
Defined.

(** X15. Segments beyond the third are never looked at: with a count of 3
    or more [HandleParms] answers as it does on the first three. *)
Theorem HandleParms_ignores_further_segments (parms : list (list ascii))
    (num_parms : nat) (sensors : list DHT) :
  3 <= num_parms ->
  HandleParms parms num_parms sensors
  = HandleParms (firstn 3 parms) 3 sensors.
Proof.
  intros Hn. unfold HandleParms, HandleParms_run, option_step.
  destruct (Nat.ltb_spec 2 num_parms); [|lia].
  destruct parms as [|a [|b [|c rest]]]; reflexivity.
Qed.

Lemma HandleParms_ignores_further_segments_witness :
  HandleParms [chars "sensor0"; chars "temp"; chars "c"; chars "x"; chars "y"]
              5 bench
  = HandleParms [chars "sensor0"; chars "temp"; chars "c"] 3 bench.
Proof.
  apply (HandleParms_ignores_further_segments
           [chars "sensor0"; chars "temp"; chars "c"; chars "x"; chars "y"]
           5 bench).
  lia.
Defined.

Lemma literal_cstring (lit : string) :
  forallb (fun c => negb (Ascii.eqb c NUL)) (chars lit) = true ->
  cstring (chars lit).
Proof. apply cstring_chars_dec. Qed.

Ltac name_of_match s :=
  match goal with
  | E : streq s ?lit = true, Hs : cstring s |- _ =>
      apply (streq_true s lit Hs) in E;
      [| apply literal_cstring; reflexivity]
  end.

(** X16. The names are matched exactly: with two segments, [HandleParms]
    ends without error if and only if the first is one of the six literals
    ["sensor0"] ... ["sensor5"] and the second is ["temp"] or
    ["humidity"]. *)
Theorem HandleParms_accepts_exact_names (s op : list ascii)
    (sensors : list DHT) :
  cstring s -> cstring op -> length sensors = NUM_SENSORS ->
  HandleParms_err [s; op] 2 sensors = Some NoError <->
  (exists k, k < NUM_SENSORS /\ s = sensor_name k) /\
  (op = chars "temp" \/ op = chars "humidity").
Proof.
  intros Hs Hop Hlen.
  do 6 (destruct sensors as [|? sensors]; try discriminate).
  destruct sensors; try discriminate. clear Hlen.
  split.
  - unfold HandleParms_err, HandleParms_run.
    cbn -[sensor_step operation_step streq]. unfold sensor_step.
    destruct (streq s "sensor0") eqn:E0;
      [| destruct (streq s "sensor1") eqn:E1;
         [| destruct (streq s "sensor2") eqn:E2;
            [| destruct (streq s "sensor3") eqn:E3;
               [| destruct (streq s "sensor4") eqn:E4;
                  [| destruct (streq s "sensor5") eqn:E5]]]]];
      cbn -[operation_step streq]; unfold operation_step;
      (destruct (streq op "temp") eqn:Et;
       [| destruct (streq op "humidity") eqn:Eh]);
      cbn; intros H; try discriminate H;
      (split;
       [ name_of_match s;
         first [ exists 0; split; [unfold NUM_SENSORS; lia | eassumption]
               | exists 1; split; [unfold NUM_SENSORS; lia | eassumption]
               | exists 2; split; [unfold NUM_SENSORS; lia | eassumption]
               | exists 3; split; [unfold NUM_SENSORS; lia | eassumption]
               | exists 4; split; [unfold NUM_SENSORS; lia | eassumption]
               | exists 5; split; [unfold NUM_SENSORS; lia | eassumption] ]
       | first [ left; exact (streq_true op "temp" Hop
                                (literal_cstring "temp" eq_refl) Et)
               | right; exact (streq_true op "humidity" Hop
                                 (literal_cstring "humidity" eq_refl) Eh) ] ]).
  - intros [[k [Hk ->]] Hopv].
    unfold HandleParms_err, HandleParms_run.
    cbn -[sensor_name sensor_step operation_step].
    rewrite sensor_step_name by exact Hk.
    destruct (sensor_name_cases k Hk) as [->|[->|[->|[->|[->| ->]]]]];
      destruct Hopv as [-> | ->]; reflexivity.
Qed.

Lemma HandleParms_accepts_exact_names_witness :
  HandleParms_err [chars "sensor2"; chars "humidity"] 2 bench = Some NoError.
Proof.
  apply (HandleParms_accepts_exact_names (chars "sensor2") (chars "humidity")
           bench).
  - apply cstring_chars_dec. reflexivity.
  - apply cstring_chars_dec. reflexivity.
  - reflexivity.
  - split; [exists 2; split; [unfold NUM_SENSORS; lia | reflexivity]|].
    now right.
Defined.

Lemma sensor_step_unknown (s : list ascii) (err : nat) :
  cstring s -> (forall k, k < NUM_SENSORS -> s <> sensor_name k) ->
  sensor_step s err = (InvalidSensor, None).
Proof.
  intros Hs Hno. unfold sensor_step.
  destruct (streq s "sensor0") eqn:E0;
    [| destruct (streq s "sensor1") eqn:E1;
       [| destruct (streq s "sensor2") eqn:E2;
          [| destruct (streq s "sensor3") eqn:E3;
             [| destruct (streq s "sensor4") eqn:E4;
                [| destruct (streq s "sensor5") eqn:E5]]]]];
    try reflexivity; exfalso; name_of_match s.
  - apply (Hno 0); [unfold NUM_SENSORS; lia | assumption].
  - apply (Hno 1); [unfold NUM_SENSORS; lia | assumption].
  - apply (Hno 2); [unfold NUM_SENSORS; lia | assumption].
  - apply (Hno 3); [unfold NUM_SENSORS; lia | assumption].
  - apply (Hno 4); [unfold NUM_SENSORS; lia | assumption].
  - apply (Hno 5); [unfold NUM_SENSORS; lia | assumption].
Qed.

(** X17. A first segment that is none of the six literals makes
    [HandleParms] return 0 whatever else the request holds: the other
    segments, the operation and the sensors are not consulted (the unit
    option only when the count says there is one). *)
Theorem HandleParms_unknown_sensor (s : list ascii)
    (others : list (list ascii)) (num_parms : nat) (sensors : list DHT) :
  cstring s -> (forall k, k < NUM_SENSORS -> s <> sensor_name k) ->
  num_parms <= 2 \/ 2 <= length others ->
  HandleParms (s :: others) num_parms sensors = Some float_zero.
Proof.
  intros Hs Hno Hn. unfold HandleParms, HandleParms_run, option_step.
  destruct (Nat.ltb_spec 2 num_parms) as [H2|H2].
  - destruct Hn as [Hn|Hn]; [lia|].
    destruct others as [|op [|opt others]]; try (simpl in Hn; lia).
    cbn [nth_error bind].
    destruct (streq opt "c"); [|destruct (streq opt "f")]; cbn [bind nth_error];
      rewrite sensor_step_unknown by assumption; reflexivity.
  - cbn [bind nth_error].
    rewrite sensor_step_unknown by assumption. reflexivity.
Qed.

Lemma HandleParms_unknown_sensor_witness :
  HandleParms [chars "Sensor1"] 1 bench = Some float_zero.
Proof.
  apply (HandleParms_unknown_sensor (chars "Sensor1") [] 1 bench).
  - apply cstring_chars_dec. reflexivity.
  - intros k Hk.
    destruct (sensor_name_cases k Hk) as [->|[->|[->|[->|[->| ->]]]]];
      discriminate.
  - left. lia.
Defined.

(** X18. A known sensor as the only segment: [HandleParms] goes on to
    compare [parms[1]], an entry [GetParms] never assigned, so its
    behaviour is undefined. *)
Theorem HandleParms_single_segment_undefined (k : nat) (sensors : list DHT) :
  k < NUM_SENSORS -> HandleParms [sensor_name k] 1 sensors = None.
Proof.
  intros Hk. unfold HandleParms, HandleParms_run.
  cbn -[sensor_name sensor_step].
  rewrite sensor_step_name by exact Hk. reflexivity.
Qed.

Lemma HandleParms_single_segment_undefined_witness :
  HandleParms [sensor_name 4] 1 bench = None.
Proof.
  apply (HandleParms_single_segment_undefined 4 bench).
  unfold NUM_SENSORS. lia.
Defined.

(** ** The sensor branch as a whole *)

Lemma HTTP_req_bytes_leading (s rest : list ascii) :
  length s <= REQ_BUF_SZ - 1 ->
  exists t, HTTP_req_bytes (s ++ rest) = s ++ t.
Proof.
  intros H. unfold HTTP_req_bytes. cbv zeta.
  rewrite firstn_app, (firstn_all2 s) by exact H.
  rewrite <- app_assoc. eauto.
Qed.

Lemma sensor_branch_segments (s1 : list ascii) (segs : list (list ascii))
    (tail : list ascii) (sensors : list DHT) :
  Forall segment (s1 :: segs) ->
  length (chars "GET " ++ path_of (s1 :: segs)) < REQ_BUF_SZ - 1 ->
  sensor_branch
    (HTTP_req_bytes (chars "GET " ++ path_of (s1 :: segs) ++ " "%char :: tail))
    sensors
  = HandleParms (firstn MAX_PARMS (s1 :: segs))
                (Nat.min MAX_PARMS (length (s1 :: segs))) sensors.
Proof.
  intros Hsegs Hfit.
  destruct (HTTP_req_bytes_leading
              (chars "GET " ++ path_of (s1 :: segs) ++ [" "%char]) tail)
    as [t Ht].
  { rewrite app_assoc, length_app. simpl length at 2. lia. }
  replace (chars "GET " ++ path_of (s1 :: segs) ++ " "%char :: tail)
    with ((chars "GET " ++ path_of (s1 :: segs) ++ [" "%char]) ++ tail)
    by (now rewrite <- !app_assoc).
  rewrite Ht.
  replace ((chars "GET " ++ path_of (s1 :: segs) ++ [" "%char]) ++ t)
    with (chars "GET " ++ path_of (s1 :: segs) ++ " "%char :: t)
    by (now rewrite <- !app_assoc).
  destruct (GetParms_segments s1 segs t MAX_PARMS (repeat None MAX_PARMS)
              Hsegs)
    as [r [Hr [Hc [Hs _]]]]; [now rewrite repeat_length|].
  unfold sensor_branch. rewrite Hr. cbn [bind]. rewrite Hs. cbn [bind].
  now rewrite Hc.
Qed.

(** X19. [GetParms] and [HandleParms] fit together: for a request
    ["GET /s1/.../sn <rest>"] whose path and the space behind it fit into
    the buffer, the sensor branch answers what [HandleParms] answers on
    the first 5 of the segments [s1], ..., [sn] with their count. *)
Theorem sensor_branch_dispatches_segments (s1 : list ascii)
    (segs : list (list ascii)) (tail : list ascii) (sensors : list DHT) :
  Forall segment (s1 :: segs) ->
  length (chars "GET " ++ path_of (s1 :: segs)) < REQ_BUF_SZ - 1 ->
  sensor_branch
    (HTTP_req_bytes (chars "GET " ++ path_of (s1 :: segs) ++ " "%char :: tail))
    sensors
  = HandleParms (firstn MAX_PARMS (s1 :: segs))
                (Nat.min MAX_PARMS (length (s1 :: segs))) sensors.
Proof. exact (sensor_branch_segments s1 segs tail sensors). Qed.

Lemma sensor_branch_dispatches_segments_witness :
  sensor_branch
    (HTTP_req_bytes
       (chars "GET " ++ path_of [chars "sensor0"; chars "temp"; chars "c"]
        ++ " "%char :: bare_tail))
    bench
  = HandleParms
      (firstn MAX_PARMS [chars "sensor0"; chars "temp"; chars "c"])
      (Nat.min MAX_PARMS 3) bench.
Proof.
  apply (sensor_branch_dispatches_segments (chars "sensor0")
           [chars "temp"; chars "c"] bare_tail bench).
  - repeat (apply Forall_cons;
            [split; [discriminate|]; unfold chars; simpl;
             repeat (apply Forall_cons; [repeat split; discriminate|]);
             apply Forall_nil|]).
    apply Forall_nil.
  - unfold REQ_BUF_SZ. simpl. lia.
Defined.

Lemma temp_segment : segment (chars "temp").
Proof.
  split; [discriminate|]. unfold chars. simpl.
  repeat (apply Forall_cons; [repeat split; discriminate|]). apply Forall_nil.
Qed.

Lemma humidity_segment : segment (chars "humidity").
Proof.
  split; [discriminate|]. unfold chars. simpl.
  repeat (apply Forall_cons; [repeat split; discriminate|]). apply Forall_nil.
Qed.

Lemma c_segment : segment (chars "c").
Proof.
  split; [discriminate|]. unfold chars. simpl.
  repeat (apply Forall_cons; [repeat split; discriminate|]). apply Forall_nil.
Qed.

Ltac as_path :=
  unfold path_of, chars; cbn [map concat list_ascii_of_string app];
  repeat (progress (norm_app; cbn [app])); reflexivity.

Lemma sensor_request_routed (k : nat) (after : list ascii) :
  InStr (HTTP_req_string (chars "GET /" ++ sensor_name k ++ after))
        (chars "GET / ") = false ->
  select_route (HTTP_req_string (chars "GET /" ++ sensor_name k ++ after))
  = Sensor.
Proof.
  intros Hroot. apply select_sensor_iff; [|exact Hroot].
  change (chars "GET /" ++ sensor_name k ++ after)
    with (chars "GET /s" ++ chars "ensor" ++ itoa k ++ after).
  apply buffer_leading; [reflexivity | discriminate |].
  unfold REQ_BUF_SZ. simpl. lia.
Qed.

(** X20. From the bytes of the request to the value printed. For the
    requests ["GET /sensorK/temp "], ["GET /sensorK/temp/c "] and
    ["GET /sensorK/humidity "], followed by anything: when the root test
    [InStr(HTTP_req, "GET / ")] fails on the stored bytes, [loop] takes the
    sensor branch, and the value that branch prints is the Fahrenheit read,
    the Celsius read, the humidity read of sensor [K]. (When the root test
    succeeds the root branch is taken instead.) *)
Theorem sensor_request_served (k : nat) (sensors : list DHT) (d : DHT)
    (tail : list ascii) :
  k < NUM_SENSORS -> nth_error sensors k = Some d ->
  let served request value :=
    (InStr (HTTP_req_string request) (chars "GET / ") = false ->
     select_route (HTTP_req_string request) = Sensor /\
     sensor_branch (HTTP_req_bytes request) sensors = Some value) /\
    (InStr (HTTP_req_string request) (chars "GET / ") = true ->
     select_route (HTTP_req_string request) = Root) in
  served (chars "GET /" ++ sensor_name k ++ chars "/temp " ++ tail)
         (readTemperature d true) /\
  served (chars "GET /" ++ sensor_name k ++ chars "/temp/c " ++ tail)
         (readTemperature d false) /\
  served (chars "GET /" ++ sensor_name k ++ chars "/humidity " ++ tail)
         (readHumidity d).
Proof.
  intros Hk Hd served. subst served. cbv beta.
  destruct (sensor_name_segment k Hk) as [Hseg Hlen].
  destruct (HandleParms_valid k sensors d Hk Hd)
    as [Ht [_ [Htc [Hh _]]]].
  assert (Hroot : forall b, InStr b (chars "GET / ") = true ->
                            select_route b = Root).
  { intros b H. unfold select_route. now rewrite H. }
  split; [|split]; (split; [intros Hno; split | apply Hroot]).
  - now apply sensor_request_routed.
  - replace (chars "GET /" ++ sensor_name k ++ chars "/temp " ++ tail)
      with (chars "GET " ++ path_of [sensor_name k; chars "temp"]
            ++ " "%char :: tail) by as_path.
    rewrite sensor_branch_segments.
    + exact Ht.
    + repeat (apply Forall_cons; [assumption || apply temp_segment|]).
      apply Forall_nil.
    + unfold path_of. cbn [map concat]. rewrite !length_app, Hlen.
      unfold REQ_BUF_SZ. simpl. lia.
  - now apply sensor_request_routed.
  - replace (chars "GET /" ++ sensor_name k ++ chars "/temp/c " ++ tail)
      with (chars "GET " ++ path_of [sensor_name k; chars "temp"; chars "c"]
            ++ " "%char :: tail) by as_path.
    rewrite sensor_branch_segments.
    + exact Htc.
    + apply Forall_cons; [assumption|].
      apply Forall_cons; [apply temp_segment|].
      apply Forall_cons; [apply c_segment | apply Forall_nil].
    + unfold path_of. cbn [map concat]. rewrite !length_app, Hlen.
      unfold REQ_BUF_SZ. simpl. lia.
  - now apply sensor_request_routed.
  - replace (chars "GET /" ++ sensor_name k ++ chars "/humidity " ++ tail)
      with (chars "GET " ++ path_of [sensor_name k; chars "humidity"]
            ++ " "%char :: tail) by as_path.
    rewrite sensor_branch_segments.
    + exact Hh.
    + apply Forall_cons; [assumption|].
      apply Forall_cons; [apply humidity_segment | apply Forall_nil].
    + unfold path_of. cbn [map concat]. rewrite !length_app, Hlen.
      unfold REQ_BUF_SZ. simpl. lia.
Qed.

Lemma sensor_request_served_witness :
  select_route
    (HTTP_req_string (chars "GET /" ++ sensor_name 0 ++ chars "/temp/c "
                      ++ bare_tail)) = Sensor /\
  sensor_branch
    (HTTP_req_bytes (chars "GET /" ++ sensor_name 0 ++ chars "/temp/c "
                     ++ bare_tail))
    bench = Some f22_2.
Proof.
  refine (proj1 (proj1 (proj2 (sensor_request_served 0 bench
                                 (bench_sensor f72_0 f22_2 float_zero)
                                 bare_tail _ _))) _).
  - unfold NUM_SENSORS. lia.
  - reflexivity.
  - reflexivity.
Defined.

(** ** The formatters *)

(** X21. Both formatters print, for each of the three fields
    independently, the reading when the read succeeded and 0 when it
    failed; a not-a-number never reaches the text. *)
Theorem formatters_replace_failed_reads (float_text : float -> list ascii)
    (dht : DHT) (sensor : nat) (name : list ascii) :
  exists f c h,
    format_data_short float_text dht sensor
    = itoa sensor ++ chars "," ++ float_text f ++ chars ","
                  ++ float_text c ++ chars "," ++ float_text h /\
    format_data_long float_text dht name
    = name ++ chars ": " ++ float_text f ++ chars "&deg;F, "
           ++ float_text c ++ chars "&deg;C, " ++ float_text h ++ chars "% RH" /\
    f = (if isnan (readTemperature dht true) then float_zero
         else readTemperature dht true) /\
    c = (if isnan (readTemperature dht false) then float_zero
         else readTemperature dht false) /\
    h = (if isnan (readHumidity dht) then float_zero else readHumidity dht) /\
    isnan f = false /\ isnan c = false /\ isnan h = false.
Proof.
  pose proof (checked_readings_not_nan dht) as H.
  unfold format_data_short, format_data_long.
  destruct (checked_readings dht) as [[f c] h] eqn:E.
  exists f, c, h. unfold checked_readings in E. injection E as <- <- <-.
  repeat split; apply H.
Qed.
